(** * llbc: the object lifetime substrate and the component method table

    A shallow embedding of
      - [llbc/src/objbase/Object.cpp]  (LLBC_Object: the intrusive reference
        count and the enrolment in auto-release pools), and
      - [llbc/include/llbc/comm/ComponentInl.h]  (LLBC_ComponentMethods and
        the method-table part of LLBC_Component),
    with the properties the specification states about them. *)

From Stdlib Require Import ZArith Lia Ascii String.
From stdpp Require Import gmap strings list.

Local Open Scope Z_scope.

(** ** Status codes

    Modelled from the spec: the macros [LLBC_OK] and [LLBC_FAILED] are
    defined in the library's common headers, not in the two files embedded
    here.  The spec says that functions return a status code and that errors
    return non-zero; the development only relies on the two codes being
    different. *)
Definition LLBC_OK : Z := 0.
Definition LLBC_FAILED : Z := -1.

(** ** Machine integers

    [_ref] and [_autoRef] are C++ [int]s.  Increments and decrements are
    written with their two's complement wrap-around, which is also what the
    atomic fetch-and-add of the [Safe] variants does. *)
Definition INT_MIN : Z := -2147483648.
Definition INT_MAX : Z := 2147483647.

Definition wrap_int (z : Z) : Z := (z + 2147483648) mod 4294967296 - 2147483648.

Definition in_int (z : Z) : Prop := INT_MIN <= z <= INT_MAX.

(** * Object.cpp *)
Module ObjBase.

(** Objects and pool stacks live in a store and are named by identities.
    An identity stands for one object over its whole life: the allocator
    hands identities out in increasing order and never hands one out twice. *)
Abbreviation oid := nat.
Abbreviation stack_id := nat.

(** The three data members of [LLBC_Object].  A null [_poolStack] is [None]. *)
Record LLBC_Object := mkObject {
  _ref : Z;
  _autoRef : Z;
  _poolStack : option stack_id
}.

(** A pool stack is the list of its pools, the top pool first; a pool is the
    list of the objects recorded in it, the latest first. *)
Abbreviation LLBC_AutoReleasePool := (list oid).
Abbreviation LLBC_AutoReleasePoolStack := (list LLBC_AutoReleasePool).

(** The part of the library's thread-local block that [AutoRelease] reads:
    [tls->objbaseTls.poolStack], null when the thread has no pool stack. *)
Record __LLBC_LibTls := mkTls { objbaseTls_poolStack : option stack_id }.

Record World := mkWorld {
  heap : gmap oid LLBC_Object;
  stacks : gmap stack_id LLBC_AutoReleasePoolStack;
  next_oid : oid
}.

(** ** A state monad with faults

    [None] is undefined behaviour: a member call through a null or a
    dangling pointer. *)
Definition M (A : Type) : Type := World → option (A * World).

#[export] Instance M_ret : MRet M := λ A a w, Some (a, w).
#[export] Instance M_bind : MBind M := λ A B k m w,
  match m w with
  | Some (a, w') => k a w'
  | None => None
  end.
Definition fault {A} : M A := λ _, None.

(** Reading and writing [*this]. *)
Definition load (this : oid) : M LLBC_Object :=
  fun w => match heap w !! this with
           | Some o => Some (o, w)
           | None => None
           end.

Definition store (this : oid) (o : LLBC_Object) : M unit :=
  fun w => Some (tt, mkWorld (<[this := o]> (heap w)) (stacks w) (next_oid w)).

Definition free (this : oid) : M unit :=
  fun w => Some (tt, mkWorld (delete this (heap w)) (stacks w) (next_oid w)).

Definition load_stack (s : stack_id) : M LLBC_AutoReleasePoolStack :=
  fun w => match stacks w !! s with
           | Some st => Some (st, w)
           | None => None
           end.

Definition store_stack (s : stack_id) (st : LLBC_AutoReleasePoolStack) : M unit :=
  fun w => Some (tt, mkWorld (heap w) (<[s := st]> (stacks w)) (next_oid w)).

Definition set_ref (o : LLBC_Object) (r : Z) : LLBC_Object :=
  mkObject r (_autoRef o) (_poolStack o).
Definition set_autoRef (o : LLBC_Object) (r : Z) : LLBC_Object :=
  mkObject (_ref o) r (_poolStack o).
Definition set_poolStack (o : LLBC_Object) (s : option stack_id) : LLBC_Object :=
  mkObject (_ref o) (_autoRef o) s.

(** ** The pool stack's two entry points

    Modelled from the spec: [LLBC_AutoReleasePoolStack::AddObject] is
    declared in [llbc/objbase/AutoReleasePoolStack.h] and defined in another
    translation unit.  The spec: enlisting increments [autoRef] and records
    the object in the top frame, it does not change [ref]; enlisting with no
    active pool returns a failure code and never creates a pool. *)
Definition AddObject (s : stack_id) (o : oid) : M Z :=
  st ← load_stack s;
  match st with
  | [] => mret LLBC_FAILED
  | top :: rest =>
      obj ← load o;
      store o (set_autoRef obj (wrap_int (_autoRef obj + 1)));;
      store_stack s ((o :: top) :: rest);;
      mret LLBC_OK
  end.

(** Modelled from the spec: [LLBC_AutoReleasePoolStack::RemoveObject] is
    defined in that other translation unit too.  An object is reachable from
    its pool stack as long as [autoRef > 0]; the destructor takes it out of
    every frame. *)
Definition RemoveObject (s : stack_id) (o : oid) : M unit :=
  st ← load_stack s;
  store_stack s (map (filter (λ x, x ≠ o)) st).

(** ** LLBC_Object *)

(** [LLBC_Object::LLBC_Object()], run on freshly allocated storage. *)
Definition LLBC_Object_new : M oid :=
  fun w =>
    let this := next_oid w in
    Some (this, mkWorld (<[this := mkObject 1 0 None]> (heap w)) (stacks w) (S this)).

(** [LLBC_Object::~LLBC_Object()] *)
Definition LLBC_Object_dtor (this : oid) : M unit :=
  o ← load this;
  match _poolStack o with
  | Some s => if bool_decide (_autoRef o ≠ 0) then RemoveObject s this else mret tt
  | None => mret tt
  end.

(** [LLBC_Delete(this)]: the destructor, then the storage is given back. *)
Definition LLBC_Delete (this : oid) : M unit :=
  LLBC_Object_dtor this;; free this.

Definition GetRefCount (this : oid) : M Z :=
  o ← load this; mret (_ref o).

(** [if (--_ref == 0) LLBC_Delete(this);] *)
Definition Release (this : oid) : M unit :=
  o ← load this;
  let r := wrap_int (_ref o - 1) in
  store this (set_ref o r);;
  if bool_decide (r = 0) then LLBC_Delete this else mret tt.

(** Modelled from the spec: the macros [LLBC_AtomicFetchAndAdd] and
    [LLBC_AtomicFetchAndSub] are defined in the library's common headers.
    The spec names them atomic add and sub; read sequentially, they update
    the counter and yield the value it had before. *)
Definition LLBC_AtomicFetchAndAdd (this : oid) (v : Z) : M Z :=
  o ← load this;
  store this (set_ref o (wrap_int (_ref o + v)));;
  mret (_ref o).

Definition LLBC_AtomicFetchAndSub (this : oid) (v : Z) : M Z :=
  o ← load this;
  store this (set_ref o (wrap_int (_ref o - v)));;
  mret (_ref o).

Definition SafeRetain (this : oid) : M unit :=
  LLBC_AtomicFetchAndAdd this 1;; mret tt.

Definition SafeRelease (this : oid) : M unit :=
  old ← LLBC_AtomicFetchAndSub this 1;
  if bool_decide (old = 1) then LLBC_Delete this else mret tt.

(** [++_ref;] *)
Definition Retain (this : oid) : M unit :=
  o ← load this;
  store this (set_ref o (wrap_int (_ref o + 1))).

(** [AutoRelease]: the pool stack is taken from the thread-local block only
    while [_poolStack] is null; [AddObject] is then called through
    [_poolStack], whatever it is. *)
Definition AutoRelease (tls : __LLBC_LibTls) (this : oid) : M Z :=
  o ← load this;
  (match _poolStack o with
   | None => store this (set_poolStack o (objbaseTls_poolStack tls))
   | Some _ => mret tt
   end);;
  o' ← load this;
  match _poolStack o' with
  | Some s => AddObject s this
  | None => fault
  end.

(** [Clone]: [LLBC_New0(LLBC_Object)]. *)
Definition Clone (this : oid) : M oid :=
  load this;; LLBC_Object_new.

(** [ToString], [Serialize], [DeSerialize], [SerializeEx], [DeSerializeEx]
    read nothing but the address and write nothing. *)
Definition Observe (this : oid) : M unit :=
  load this;; mret tt.

(** ** Programs over objects *)
Inductive ObjOp :=
  | OpNew
  | OpGetRefCount (this : oid)
  | OpRelease (this : oid)
  | OpSafeRetain (this : oid)
  | OpSafeRelease (this : oid)
  | OpRetain (this : oid)
  | OpAutoRelease (tls : __LLBC_LibTls) (this : oid)
  | OpClone (this : oid)
  | OpObserve (this : oid).

Definition discard {A} (m : M A) : World → option World :=
  fun w => match m w with Some (_, w') => Some w' | None => None end.

Definition step (op : ObjOp) : World → option World :=
  match op with
  | OpNew => discard LLBC_Object_new
  | OpGetRefCount this => discard (GetRefCount this)
  | OpRelease this => discard (Release this)
  | OpSafeRetain this => discard (SafeRetain this)
  | OpSafeRelease this => discard (SafeRelease this)
  | OpRetain this => discard (Retain this)
  | OpAutoRelease tls this => discard (AutoRelease tls this)
  | OpClone this => discard (Clone this)
  | OpObserve this => discard (Observe this)
  end.

Fixpoint run (ops : list ObjOp) (w : World) : option World :=
  match ops with
  | [] => Some w
  | op :: ops' =>
      match step op w with
      | Some w' => run ops' w'
      | None => None
      end
  end.

(** Every identity in use was handed out by the allocator. *)
Definition wf (w : World) : Prop :=
  ∀ a o, heap w !! a = Some o → (a < next_oid w)%nat.

Definition empty_world : World := mkWorld ∅ ∅ 0%nat.

(** The pool stack [AutoRelease] calls [AddObject] through: the object's
    own when it has one, else the calling thread's. *)
Definition resolved_poolStack (tls : __LLBC_LibTls) (o : LLBC_Object)
  : option stack_id :=
  match _poolStack o with
  | Some s => Some s
  | None => objbaseTls_poolStack tls
  end.

(** How the store may change between two points of an execution that
    started in a well-formed store: no identity is handed out twice, a dead
    object stays dead, and a live object whose [_poolStack] is set keeps
    it. *)
Definition evolves (w w' : World) : Prop :=
  wf w →
  wf w' ∧ (next_oid w ≤ next_oid w')%nat
  ∧ ∀ a, match heap w !! a with
         | Some o => ∀ o' s, heap w' !! a = Some o' →
                             _poolStack o = Some s → _poolStack o' = Some s
         | None => (a < next_oid w)%nat → heap w' !! a = None
         end.

(** A computation that, started where [P] holds, only lets the store
    evolve. *)
Definition preserves_if {A} (P : World → Prop) (m : M A) : Prop :=
  ∀ w x w', P w → m w = Some (x, w') → evolves w w'.

Definition preserves {A} (m : M A) : Prop := preserves_if (λ _, True) m.

(** The pool stack an object points to, if any, is in the store. *)
Definition stack_ok (w : World) (o : LLBC_Object) : Prop :=
  ∀ s, _poolStack o = Some s → is_Some (stacks w !! s).

(** The object an operation is called on; the constructor is called on
    none. *)
Definition op_target (op : ObjOp) : option oid :=
  match op with
  | OpNew => None
  | OpGetRefCount this | OpRelease this | OpSafeRetain this
  | OpSafeRelease this | OpRetain this | OpAutoRelease _ this
  | OpClone this | OpObserve this => Some this
  end.

(** A computation that leaves every object other than [this] as it is. *)
Definition frames {A} (this : oid) (m : M A) : Prop :=
  ∀ w x w', m w = Some (x, w') →
  ∀ other, other ≠ this → heap w' !! other = heap w !! other.

(** Every live object is owned: its count is at least one (and an [int]). *)
Definition counts_positive (w : World) : Prop :=
  ∀ a o, heap w !! a = Some o → 1 <= _ref o <= INT_MAX.

(** The increment of the operation, if it makes one, does not pass
    [INT_MAX]. *)
Definition no_overflow (op : ObjOp) (w : World) : Prop :=
  match op with
  | OpRetain this | OpSafeRetain this =>
      ∀ o, heap w !! this = Some o → _ref o < INT_MAX
  | _ => True
  end.

(** The store after [Retain] or [Release] changed the count of [this]. *)
Definition with_ref (w : World) (this : oid) (o : LLBC_Object) (r : Z) : World :=
  mkWorld (<[this := set_ref o r]> (heap w)) (stacks w) (next_oid w).

End ObjBase.

(** * ComponentInl.h *)

(** Modelled from the spec: the [LLBC_ERROR_*] codes are defined in the
    library's common headers.  The spec lists the error kinds: Arg (bad
    input), NotFound (lookup miss), Repeat (duplicate registration), State,
    ProtocolError, WouldBlock, Closed, Timeout, Internal. *)
Inductive ErrKind :=
| LLBC_ERROR_ARG
| LLBC_ERROR_NOT_FOUND
| LLBC_ERROR_REPEAT
| LLBC_ERROR_STATE
| LLBC_ERROR_PROTOCOL
| LLBC_ERROR_WOULD_BLOCK
| LLBC_ERROR_CLOSED
| LLBC_ERROR_TIMEOUT
| LLBC_ERROR_INTERNAL.

Section Delegate.
Context (Variant : Type).

(** What a bound method does when it is called: from the argument, the
    current content of [ret] and the thread's last error to a status, the
    new content of [ret] and the new last error. *)
Definition Handler : Type :=
  Variant → Variant → option ErrKind → Z * Variant * option ErrKind.

(** [LLBC_ComponentMethod] is a delegate: empty ([None], for which
    [!meth] holds) or bound to a handler. *)
Definition LLBC_ComponentMethod : Type := option Handler.

(** The calling thread: its last-error slot ([None] until an error is
    set), and the calls made to bound methods so far, oldest first. *)
Record Thread := mkThread {
  lastError : option ErrKind;
  invoked : list (Handler * Variant)
}.

Definition LLBC_SetLastError (k : ErrKind) (th : Thread) : Thread :=
  mkThread (Some k) (invoked th).

(** [meth(arg, ret)] *)
Definition invoke (h : Handler) (arg ret : Variant) (th : Thread)
  : Z * Variant * Thread :=
  let '(status, ret', err) := h arg ret (lastError th) in
  (status, ret', mkThread err (invoked th ++ [(h, arg)])).
End Delegate.

Arguments lastError {Variant} _.
Arguments invoked {Variant} _.
Arguments mkThread {Variant} _ _.
Arguments LLBC_SetLastError {Variant} _ _.
Arguments invoke {Variant} _ _ _ _.

Module LLBC_ComponentMethods.
Section Methods.
Context (Variant : Type).

Local Abbreviation Method := (LLBC_ComponentMethod Variant).

(** [_meths] is the map ([Methods]), [_methList] the vector of pairs in
    registration order.  Method names are compared by content. *)
Record t := mk {
  _meths : gmap string Method;
  _methList : list (string * Method)
}.

(** [LLBC_ComponentMethods::LLBC_ComponentMethods()] *)
Definition new : t := mk ∅ [].

(** The default-constructed [static const LLBC_ComponentMethod nullMeth]. *)
Definition nullMeth : Method := None.

(** The [for] loop of [GetMethod]: the first pair whose name is
    [methName]. *)
Fixpoint scan (l : list (string * Method)) (methName : string) : option Method :=
  match l with
  | [] => None
  | methPair :: l' =>
      if decide (methPair.1 = methName) then Some methPair.2
      else scan l' methName
  end.

(** The tail both branches of [GetMethod] fall into on a miss. *)
Definition found_or_null (r : option Method) (th : Thread Variant)
  : Method * Thread Variant :=
  match r with
  | Some meth => (meth, th)
  | None => (nullMeth, LLBC_SetLastError LLBC_ERROR_NOT_FOUND th)
  end.

(** The branch [methSize <= 30]. *)
Definition GetMethod_scan (methName : string) (ms : t) (th : Thread Variant) :=
  found_or_null (scan (_methList ms) methName) th.

(** The branch [methSize > 30]: [_meths.find(methName)]. *)
Definition GetMethod_find (methName : string) (ms : t) (th : Thread Variant) :=
  found_or_null (_meths ms !! methName) th.

Definition GetMethod (methName : string) (ms : t) (th : Thread Variant)
  : Method * Thread Variant :=
  let methSize := length (_methList ms) in
  if bool_decide (methSize ≤ 30)%nat then GetMethod_scan methName ms th
  else GetMethod_find methName ms th.

(** [_meths.emplace(methName, meth)]: the map after the call and whether
    the pair went in; a name already bound keeps its binding. *)
Definition emplace (methName : string) (meth : Method) (m : gmap string Method)
  : gmap string Method * bool :=
  match m !! methName with
  | Some _ => (m, false)
  | None => (<[methName := meth]> m, true)
  end.

Definition AddMethod (methName : string) (meth : Method) (ms : t)
    (th : Thread Variant) : Z * t * Thread Variant :=
  if bool_decide (methName = "") then
    (LLBC_FAILED, ms, LLBC_SetLastError LLBC_ERROR_ARG th)
  else
    let '(meths', inserted) := emplace methName meth (_meths ms) in
    if negb inserted then
      (LLBC_FAILED, mk meths' (_methList ms), LLBC_SetLastError LLBC_ERROR_REPEAT th)
    else
      (LLBC_OK, mk meths' (_methList ms ++ [(methName, meth)]), th).

Definition CallMethod (methName : string) (arg ret : Variant) (ms : t)
    (th : Thread Variant) : Z * Variant * Thread Variant :=
  let '(meth, th') := GetMethod methName ms th in
  match meth with
  | None => (LLBC_FAILED, ret, th')
  | Some h => invoke h arg ret th'
  end.

(** The table after a series of [AddMethod] calls on a new table, and the
    thread after them. *)
Fixpoint AddMethods (calls : list (string * Method)) (ms : t)
    (th : Thread Variant) : t * Thread Variant :=
  match calls with
  | [] => (ms, th)
  | (methName, meth) :: calls' =>
      let '(_, ms', th') := AddMethod methName meth ms th in
      AddMethods calls' ms' th'
  end.

Definition table_of (calls : list (string * Method)) : t :=
  (AddMethods calls new (mkThread None [])).1.

(** The two structures hold the same bindings: the scan over the list and
    the map find the same method under every name. *)
Definition consistent (ms : t) : Prop :=
  ∀ methName, scan (_methList ms) methName = _meths ms !! methName.
End Methods.

Arguments _meths {Variant} _.
Arguments _methList {Variant} _.
Arguments mk {Variant} _ _.
Arguments new {Variant}.
Arguments nullMeth {Variant}.
Arguments scan {Variant} _ _.
Arguments found_or_null {Variant} _ _.
Arguments GetMethod_scan {Variant} _ _ _.
Arguments GetMethod_find {Variant} _ _ _.
Arguments GetMethod {Variant} _ _ _.
Arguments emplace {Variant} _ _ _.
Arguments AddMethod {Variant} _ _ _ _.
Arguments CallMethod {Variant} _ _ _ _ _.
Arguments AddMethods {Variant} _ _ _.
Arguments table_of {Variant} _.
Arguments consistent {Variant} _.
End LLBC_ComponentMethods.

Module LLBC_Component.
Section Component.
Context (Variant : Type).

Local Abbreviation Method := (LLBC_ComponentMethod Variant).

(** The one data member the method calls use: [_meths], a pointer to the
    method table, null until the first [AddMethod]. *)
Record t := mk { _meths : option (LLBC_ComponentMethods.t Variant) }.

(** A component on which no method was ever added. *)
Definition new : t := mk None.

(** [LIKELY(_meths) ? *_meths : emptyMethods] *)
Definition GetAllMethods (c : t) : LLBC_ComponentMethods.t Variant :=
  match _meths c with
  | Some ms => ms
  | None => LLBC_ComponentMethods.new
  end.

(** [if (!_meths) _meths = new LLBC_ComponentMethods;] then the table's
    [AddMethod].  The overload taking a member function pointer wraps it in
    a delegate and calls this one. *)
Definition AddMethod (methName : string) (meth : Method) (c : t)
    (th : Thread Variant) : Z * t * Thread Variant :=
  let ms := match _meths c with
            | Some ms => ms
            | None => LLBC_ComponentMethods.new
            end in
  let '(status, ms', th') := LLBC_ComponentMethods.AddMethod methName meth ms th in
  (status, mk (Some ms'), th').

Definition CallMethod (methName : string) (arg ret : Variant) (c : t)
    (th : Thread Variant) : Z * Variant * Thread Variant :=
  match _meths c with
  | None => (LLBC_FAILED, ret, LLBC_SetLastError LLBC_ERROR_NOT_FOUND th)
  | Some ms => LLBC_ComponentMethods.CallMethod methName arg ret ms th
  end.

Fixpoint AddMethods (calls : list (string * Method)) (c : t)
    (th : Thread Variant) : t * Thread Variant :=
  match calls with
  | [] => (c, th)
  | (methName, meth) :: calls' =>
      let '(_, c', th') := AddMethod methName meth c th in
      AddMethods calls' c' th'
  end.

(** [methName] is bound in the component's method table. *)
Definition registered (methName : string) (c : t) : Prop :=
  match _meths c with
  | Some ms => is_Some (LLBC_ComponentMethods._meths ms !! methName)
  | None => False
  end.
End Component.

Arguments _meths {Variant} _.
Arguments mk {Variant} _.
Arguments new {Variant}.
Arguments GetAllMethods {Variant} _.
Arguments AddMethod {Variant} _ _ _ _.
Arguments CallMethod {Variant} _ _ _ _ _.
Arguments AddMethods {Variant} _ _ _.
Arguments registered {Variant} _ _.
End LLBC_Component.

(** * Data for the examples *)

(** A handler that answers with its argument. *)
Definition echo : Handler Z := λ arg _ err, (LLBC_OK, arg, err).

(** [n] different one-letter method names, from "a" on. *)
Definition method_names (n : nat) : list string :=
  map (λ i, String (ascii_of_nat (97 + i)) EmptyString) (seq 0 n).

(** One [AddMethod] call per name, each binding [echo]. *)
Definition echo_calls (n : nat) : list (string * LLBC_ComponentMethod Z) :=
  map (λ k, (k, Some echo)) (method_names n).

(** * Facts about the status codes and the machine integers *)

Lemma LLBC_FAILED_distinct : LLBC_FAILED ≠ LLBC_OK.
Proof. discriminate. Qed.

Lemma wrap_int_small z : in_int z → wrap_int z = z.
Proof.
  unfold in_int, INT_MIN, INT_MAX, wrap_int. intros Hz.
  rewrite Z.mod_small; lia.
Qed.

Lemma wrap_int_range z : in_int (wrap_int z).
Proof.
  unfold in_int, INT_MIN, INT_MAX, wrap_int.
  pose proof (Z.mod_pos_bound (z + 2147483648) 4294967296). lia.
Qed.

Lemma wrap_int_succ_max : wrap_int (INT_MAX + 1) = INT_MIN.
Proof. reflexivity. Qed.

Lemma wrap_int_pred_min : wrap_int (INT_MIN - 1) = INT_MAX.
Proof. reflexivity. Qed.

(** Going one up and one down again is the identity, also across the wrap. *)
Lemma wrap_int_succ_pred z : in_int z → wrap_int (wrap_int (z + 1) - 1) = z.
Proof.
  intros Hz. destruct (decide (z = INT_MAX)) as [->|Hne].
  - reflexivity.
  - unfold in_int, INT_MIN, INT_MAX in *.
    rewrite (wrap_int_small (z + 1)) by (unfold in_int, INT_MIN, INT_MAX; lia).
    rewrite wrap_int_small by (unfold in_int, INT_MIN, INT_MAX; lia). lia.
Qed.

(** The decremented counter is zero exactly when the counter was one. *)
Lemma wrap_int_pred_zero z : in_int z → wrap_int (z - 1) = 0 ↔ z = 1.
Proof.
  intros Hz. destruct (decide (z = INT_MIN)) as [->|Hne].
  - split; [intros H; vm_compute in H; discriminate | discriminate].
  - unfold in_int, INT_MIN, INT_MAX in *.
    rewrite wrap_int_small by (unfold in_int, INT_MIN, INT_MAX; lia). lia.
Qed.

Lemma wrap_int_succ_nonzero z : in_int z → 1 <= z → wrap_int (z + 1) ≠ 0.
Proof.
  intros Hz Hpos. destruct (decide (z = INT_MAX)) as [->|Hne].
  - discriminate.
  - unfold in_int, INT_MIN, INT_MAX in *.
    rewrite wrap_int_small by (unfold in_int, INT_MIN, INT_MAX; lia). lia.
Qed.

(** * Facts about Object.cpp *)
Module ObjBaseFacts.
Import ObjBase.

Ltac unfold_M :=
  unfold mbind, M_bind, mret, M_ret, fault, load, store, free,
    load_stack, store_stack in *; simpl in *.

Lemma World_eta w : mkWorld (heap w) (stacks w) (next_oid w) = w.
Proof. by destruct w. Qed.

Lemma set_ref_id o : set_ref o (_ref o) = o.
Proof. by destruct o. Qed.

(** What [Retain] does to a live object. *)
Lemma Retain_alive w this o :
  heap w !! this = Some o →
  Retain this w =
    Some (tt, mkWorld (<[this := set_ref o (wrap_int (_ref o + 1))]> (heap w))
                (stacks w) (next_oid w)).
Proof. intros Hthis. unfold Retain. unfold_M. by rewrite Hthis. Qed.

(** What [Release] does to a live object: the decrement, then the test. *)
Lemma Release_alive w this o :
  heap w !! this = Some o →
  Release this w =
    let w1 := mkWorld (<[this := set_ref o (wrap_int (_ref o - 1))]> (heap w))
                (stacks w) (next_oid w) in
    if bool_decide (wrap_int (_ref o - 1) = 0) then LLBC_Delete this w1
    else Some (tt, w1).
Proof.
  intros Hthis. unfold Release. unfold_M. rewrite Hthis.
  by case_bool_decide.
Qed.

(** [LLBC_Delete] of a live object returns, and the object is gone. *)
Lemma LLBC_Delete_alive w this o :
  heap w !! this = Some o → stack_ok w o →
  ∃ w', LLBC_Delete this w = Some (tt, w') ∧ heap w' = delete this (heap w)
        ∧ next_oid w' = next_oid w.
Proof.
  intros Hthis Hok. unfold LLBC_Delete, LLBC_Object_dtor, RemoveObject.
  unfold_M. rewrite Hthis.
  destruct (_poolStack o) as [s|] eqn:Hs; [|eauto].
  case_bool_decide; [|eauto].
  destruct (Hok s Hs) as [st Hst]. unfold_M. rewrite Hst. eauto.
Qed.

(** C4.  For every live object whose reference count is at least one,
    [Retain()] followed by [Release()] leaves the count as it was and does
    not destroy the object; the pair leaves the whole store as it was. *)
Theorem Retain_Release_noop (w : World) (this : oid) (o : LLBC_Object) :
  heap w !! this = Some o →
  1 <= _ref o <= INT_MAX →
  (Retain this;; Release this) w = Some (tt, w)
  ∧ ∃ w1 w2, Retain this w = Some (tt, w1) ∧ Release this w1 = Some (tt, w2)
             ∧ heap w2 !! this = Some o ∧ w2 = w.
Proof.
  intros Hthis Href.
  assert (Hin : in_int (_ref o)) by (unfold in_int, INT_MIN; lia).
  pose proof (Retain_alive w this o Hthis) as Hretain.
  set (w1 := mkWorld (<[this := set_ref o (wrap_int (_ref o + 1))]> (heap w))
               (stacks w) (next_oid w)) in *.
  assert (Hrelease : Release this w1 = Some (tt, w)).
  { rewrite (Release_alive w1 this (set_ref o (wrap_int (_ref o + 1))))
      by (simpl; apply lookup_insert_eq).
    simpl. rewrite wrap_int_succ_pred by done.
    rewrite bool_decide_eq_false_2 by lia.
    rewrite insert_insert_eq.
    replace (set_ref (set_ref o (wrap_int (_ref o + 1))) (_ref o)) with o
      by (by destruct o).
    rewrite insert_id by done. by rewrite World_eta. }
  split; [|by eauto 10].
  change ((Retain this;; Release this) w)
    with (match Retain this w with Some (_, w') => Release this w' | None => None end).
  by rewrite Hretain.
Qed.

Lemma Retain_Release_noop_witness :
  let w := mkWorld {[ 0%nat := mkObject INT_MAX 0 None ]} ∅ 1%nat in
  (Retain 0%nat;; Release 0%nat) w = Some (tt, w)
  ∧ ∃ w1 w2, Retain 0%nat w = Some (tt, w1) ∧ Release 0%nat w1 = Some (tt, w2)
             ∧ heap w2 !! 0%nat = Some (mkObject INT_MAX 0 None) ∧ w2 = w.
Proof.
  apply (Retain_Release_noop _ 0%nat (mkObject INT_MAX 0 None)).
  - reflexivity.
  - simpl. unfold INT_MAX. lia.
Defined.

(** C5.  [Release()] takes exactly one off [_ref] and destroys the object
    if and only if the decremented count is zero; an object whose count was
    at least two is not destroyed. *)
Theorem Release_decrements_destroys_at_zero (w : World) (this : oid) (o : LLBC_Object) :
  heap w !! this = Some o →
  INT_MIN < _ref o <= INT_MAX →
  stack_ok w o →
  let w1 := mkWorld (<[this := set_ref o (_ref o - 1)]> (heap w))
              (stacks w) (next_oid w) in
  (∃ w', Release this w = Some (tt, w')
         ∧ (heap w' !! this = None ↔ _ref o - 1 = 0)
         ∧ (_ref o - 1 ≠ 0 → w' = w1))
  ∧ (_ref o - 1 = 0 → Release this w = LLBC_Delete this w1)
  ∧ (2 <= _ref o →
       ∃ w', Release this w = Some (tt, w')
             ∧ heap w' !! this = Some (set_ref o (_ref o - 1))).
Proof.
  intros Hthis Href Hok w1.
  assert (Hwrap : wrap_int (_ref o - 1) = _ref o - 1)
    by (apply wrap_int_small; unfold in_int; lia).
  pose proof (Release_alive w this o Hthis) as Hrel.
  simpl in Hrel. rewrite Hwrap in Hrel. fold w1 in Hrel.
  assert (Hlive : heap w1 !! this = Some (set_ref o (_ref o - 1)))
    by (simpl; apply lookup_insert_eq).
  split; [|split].
  - case_bool_decide as Hz.
    + destruct (LLBC_Delete_alive w1 this _ Hlive) as (w' & Hdel & Hheap & _);
        [done|].
      exists w'. rewrite Hrel, Hdel, Hheap. split; [done|].
      split; [|done]. by rewrite lookup_delete_eq.
    + exists w1. rewrite Hrel, Hlive. split; [done|]. split; [|done].
      split; [done|]. intros; lia.
  - intros Hz. by rewrite Hrel, bool_decide_eq_true_2.
  - intros Htwo. rewrite bool_decide_eq_false_2 in Hrel by lia. eauto.
Qed.

Lemma Release_decrements_destroys_at_zero_witness :
  let o := mkObject 1 0 None in
  let w := mkWorld {[ 0%nat := o ]} ∅ 1%nat in
  let w1 := mkWorld (<[0%nat := set_ref o (_ref o - 1)]> (heap w))
              (stacks w) (next_oid w) in
  (∃ w', Release 0%nat w = Some (tt, w')
         ∧ (heap w' !! 0%nat = None ↔ _ref o - 1 = 0)
         ∧ (_ref o - 1 ≠ 0 → w' = w1))
  ∧ (_ref o - 1 = 0 → Release 0%nat w = LLBC_Delete 0%nat w1)
  ∧ (2 <= _ref o →
       ∃ w', Release 0%nat w = Some (tt, w')
             ∧ heap w' !! 0%nat = Some (set_ref o (_ref o - 1))).
Proof.
  apply (Release_decrements_destroys_at_zero _ 0%nat (mkObject 1 0 None)).
  - reflexivity.
  - simpl. unfold INT_MIN, INT_MAX. lia.
  - intros s Hs. discriminate Hs.
Defined.

(** C9.  In the sequential embedding [SafeRetain] is [Retain] and
    [SafeRelease] is [Release]: on every store they end in the same store,
    so the count is updated alike and the object is destroyed alike. *)
Theorem Safe_variants_equivalent (w : World) (this : oid) :
  (∀ o, heap w !! this = Some o → in_int (_ref o)) →
  SafeRetain this w = Retain this w ∧ SafeRelease this w = Release this w.
Proof.
  intros Hin. split.
  - unfold SafeRetain, Retain, LLBC_AtomicFetchAndAdd. unfold_M.
    by destruct (heap w !! this).
  - unfold SafeRelease, Release, LLBC_AtomicFetchAndSub. unfold_M.
    destruct (heap w !! this) as [o|] eqn:Hthis; [|done].
    pose proof (wrap_int_pred_zero (_ref o) (Hin o eq_refl)) as Hz.
    do 2 case_bool_decide; tauto.
Qed.

Lemma Safe_variants_equivalent_witness :
  let w := mkWorld {[ 0%nat := mkObject 1 0 None ]} ∅ 1%nat in
  SafeRetain 0%nat w = Retain 0%nat w ∧ SafeRelease 0%nat w = Release 0%nat w.
Proof.
  apply (Safe_variants_equivalent _ 0%nat).
  intros o Ho. vm_compute in Ho. injection Ho as <-. vm_compute. split; discriminate.
Defined.

(** C10.  A freshly constructed object has [_ref == 1], [_autoRef == 0] and
    a null [_poolStack]; one [Release()] right after destroys it. *)
Theorem fresh_object_released_is_destroyed (w : World) :
  ∃ w1 w2,
    LLBC_Object_new w = Some (next_oid w, w1)
    ∧ heap w1 !! next_oid w = Some (mkObject 1 0 None)
    ∧ Release (next_oid w) w1 = Some (tt, w2)
    ∧ heap w2 !! next_oid w = None.
Proof.
  eexists _, _. split; [reflexivity|]. split; [apply lookup_insert_eq|].
  rewrite (Release_alive _ _ (mkObject 1 0 None)) by apply lookup_insert_eq.
  simpl. unfold LLBC_Delete, LLBC_Object_dtor. unfold_M.
  rewrite lookup_insert_eq. simpl. split; [reflexivity|].
  simpl. apply lookup_delete_eq.
Qed.

(** C3.  [AutoRelease()] leaves [_ref] as it is, for this object and for
    every other one.  When it returns it has resolved the pool stack (the
    object's own, else the thread's) and, on [LLBC_OK], incremented
    [_autoRef] and recorded the object in the top frame; on [LLBC_FAILED]
    (no frame) nothing but [_poolStack] has changed.  It does not return
    only when the object is dead, no pool stack is resolved or the resolved
    one is not in the store. *)
Theorem AutoRelease_keeps_ref (tls : __LLBC_LibTls) (this : oid) (w : World) :
  match AutoRelease tls this w with
  | Some (rc, w') =>
      (∀ a, _ref <$> heap w' !! a = _ref <$> heap w !! a)
      ∧ ∃ o o' s,
          heap w !! this = Some o ∧ heap w' !! this = Some o'
          ∧ _ref o' = _ref o
          ∧ resolved_poolStack tls o = Some s ∧ _poolStack o' = Some s
          ∧ ((rc = LLBC_OK
              ∧ _autoRef o' = wrap_int (_autoRef o + 1)
              ∧ ∃ top rest, stacks w !! s = Some (top :: rest)
                            ∧ stacks w' = <[s := (this :: top) :: rest]> (stacks w))
             ∨ (rc = LLBC_FAILED
                ∧ _autoRef o' = _autoRef o
                ∧ stacks w !! s = Some [] ∧ stacks w' = stacks w))
  | None =>
      heap w !! this = None
      ∨ ∃ o, heap w !! this = Some o
             ∧ (resolved_poolStack tls o = None
                ∨ ∃ s, resolved_poolStack tls o = Some s ∧ stacks w !! s = None)
  end.
Proof.
  unfold AutoRelease, AddObject, resolved_poolStack. unfold_M.
  destruct (heap w !! this) as [o|] eqn:Hthis; [|by left].
  destruct o as [r ar ps]. simpl.
  assert (Hrefs : ∀ (o' : LLBC_Object) a, _ref o' = r →
            _ref <$> <[this := o']> (heap w) !! a = _ref <$> heap w !! a).
  { intros o' a Hr. destruct (decide (a = this)) as [->|Hne].
    - by rewrite lookup_insert_eq, Hthis; simpl; f_equal.
    - by rewrite lookup_insert_ne. }
  destruct ps as [s|]; simpl.
  - rewrite Hthis. simpl.
    destruct (stacks w !! s) as [[|top rest]|] eqn:Hs.
    + split; [done|]. eexists _, _, s. repeat split; eauto.
    + rewrite Hthis. simpl. split; [intros a; by apply Hrefs|].
      eexists _, _, s. rewrite lookup_insert_eq.
      repeat split; eauto. left. eauto 10.
    + right. eexists. split; [done|]. right. eauto.
  - rewrite lookup_insert_eq. simpl.
    destruct (objbaseTls_poolStack tls) as [s|] eqn:Htls; simpl.
    + destruct (stacks w !! s) as [[|top rest]|] eqn:Hs.
      * simpl. split; [intros a; by apply Hrefs|]. eexists _, _, s.
        rewrite lookup_insert_eq. repeat split; eauto.
      * simpl. rewrite lookup_insert_eq. simpl. rewrite insert_insert_eq.
        split; [intros a; by apply Hrefs|]. eexists _, _, s. rewrite lookup_insert_eq.
        repeat split; eauto. left. eauto 10.
      * right. eexists. split; [done|]. right. eauto.
    + right. eexists. split; [done|]. by left.
Qed.

(** C2, on the code.  A fresh object on a thread whose thread-local pool
    stack is null: [AutoRelease()] stores the null pointer in [_poolStack]
    and calls [AddObject] through it, so no status code comes back. *)
Example AutoRelease_null_pool_stack_faults :
  (this ← LLBC_Object_new; AutoRelease (mkTls None) this) empty_world = None.
Proof. reflexivity. Qed.

(** The same on every store: an object that has no pool stack yet, on a
    thread that has none either. *)
Lemma AutoRelease_null_tls (w : World) (this : oid) (o : LLBC_Object) :
  heap w !! this = Some o → _poolStack o = None →
  AutoRelease (mkTls None) this w = None.
Proof.
  intros Hthis Hnull. unfold AutoRelease. unfold_M.
  rewrite Hthis, Hnull. simpl. by rewrite lookup_insert_eq.
Qed.

(** [AutoRelease] creates no pool: whenever it returns, every pool stack has
    as many frames as before. *)
Lemma AutoRelease_creates_no_pool tls this w rc w' :
  AutoRelease tls this w = Some (rc, w') →
  ∀ s, length <$> stacks w' !! s = length <$> stacks w !! s.
Proof.
  unfold AutoRelease, AddObject. unfold_M.
  destruct (heap w !! this) as [o|] eqn:Hthis; [|done].
  assert (Hframes : ∀ s0 top rest (m : gmap stack_id LLBC_AutoReleasePoolStack) s,
            m !! s0 = Some (top :: rest) →
            length <$> <[s0 := (this :: top) :: rest]> m !! s = length <$> m !! s).
  { intros s0 top rest m s Hs0. destruct (decide (s = s0)) as [Heq|Hne].
    - subst s. by rewrite lookup_insert_eq, Hs0.
    - by rewrite lookup_insert_ne. }
  destruct (_poolStack o) as [s0|] eqn:Hps; simpl.
  - rewrite Hthis, Hps. simpl.
    destruct (stacks w !! s0) as [[|top rest]|] eqn:Hs0; simpl; [| |done].
    + by intros [= _ <-].
    + rewrite Hthis. simpl. intros [= _ <-] s. simpl. by apply Hframes.
  - rewrite lookup_insert_eq. simpl.
    destruct (objbaseTls_poolStack tls) as [s0|]; simpl; [|done].
    destruct (stacks w !! s0) as [[|top rest]|] eqn:Hs0; simpl; [| |done].
    + by intros [= _ <-].
    + rewrite lookup_insert_eq. simpl. intros [= _ <-] s. simpl. by apply Hframes.
Qed.

(** With a pool stack that has no frame the failure code does come back,
    and no frame has been created. *)
Example AutoRelease_no_frame_fails :
  (this ← LLBC_Object_new; AutoRelease (mkTls (Some 0%nat)) this)
    (mkWorld ∅ {[ 0%nat := [] ]} 0%nat)
  = Some (LLBC_FAILED,
          mkWorld {[ 0%nat := mkObject 1 0 (Some 0%nat) ]} {[ 0%nat := [] ]} 1%nat).
Proof. reflexivity. Qed.

Example AutoRelease_top_frame :
  (this ← LLBC_Object_new; AutoRelease (mkTls (Some 0%nat)) this)
    (mkWorld ∅ {[ 0%nat := [[]; [7%nat]] ]} 0%nat)
  = Some (LLBC_OK,
          mkWorld {[ 0%nat := mkObject 1 1 (Some 0%nat) ]}
            {[ 0%nat := [[0%nat]; [7%nat]] ]} 1%nat).
Proof. reflexivity. Qed.

(** ** The store only evolves *)

Lemma evolves_refl w : evolves w w.
Proof.
  intros Hwf. split; [done|]. split; [done|]. intros a.
  destruct (heap w !! a); [by intros ? ? [= <-]|done].
Qed.

Lemma evolves_trans w1 w2 w3 : evolves w1 w2 → evolves w2 w3 → evolves w1 w3.
Proof.
  intros H12 H23 Hwf1.
  destruct (H12 Hwf1) as (Hwf2 & Hle12 & Hp12).
  destruct (H23 Hwf2) as (Hwf3 & Hle23 & Hp23).
  split; [done|]. split; [lia|]. intros a.
  specialize (Hp12 a). specialize (Hp23 a).
  destruct (heap w1 !! a) as [o1|] eqn:H1.
  - intros o3 s H3 Hs. destruct (heap w2 !! a) as [o2|] eqn:H2.
    + eauto.
    + pose proof (Hwf1 _ _ H1). rewrite Hp23 in H3 by lia. done.
  - intros Hlt. specialize (Hp12 Hlt). rewrite Hp12 in Hp23.
    apply Hp23. lia.
Qed.

Lemma evolves_insert w this o o' st :
  heap w !! this = Some o →
  (∀ s, _poolStack o = Some s → _poolStack o' = Some s) →
  evolves w (mkWorld (<[this := o']> (heap w)) st (next_oid w)).
Proof.
  intros Hthis Hkeep Hwf. split; [|split; [done|]]; simpl.
  - intros a oa. simpl. destruct (decide (a = this)) as [->|Hne].
    + intros _. by eapply Hwf.
    + rewrite lookup_insert_ne by done. apply Hwf.
  - intros a. destruct (decide (a = this)) as [->|Hne].
    + simpl. rewrite Hthis, lookup_insert_eq. intros ? ? [= <-]. apply Hkeep.
    + rewrite lookup_insert_ne by done.
      destruct (heap w !! a); [by intros ? ? [= <-]|done].
Qed.

Lemma evolves_delete w this st :
  evolves w (mkWorld (delete this (heap w)) st (next_oid w)).
Proof.
  intros Hwf. split; [|split; [done|]]; simpl.
  - intros a oa. simpl. destruct (decide (a = this)) as [->|Hne].
    + by rewrite lookup_delete_eq.
    + rewrite lookup_delete_ne by done. apply Hwf.
  - intros a. simpl. destruct (decide (a = this)) as [->|Hne].
    + rewrite lookup_delete_eq. by destruct (heap w !! this).
    + rewrite lookup_delete_ne by done.
      destruct (heap w !! a); [by intros ? ? [= <-]|done].
Qed.

Lemma evolves_stacks w st : evolves w (mkWorld (heap w) st (next_oid w)).
Proof.
  intros Hwf. split; [done|]. split; [done|]. intros a. simpl.
  destruct (heap w !! a); [by intros ? ? [= <-]|done].
Qed.

Lemma evolves_new w o :
  evolves w (mkWorld (<[next_oid w := o]> (heap w)) (stacks w) (S (next_oid w))).
Proof.
  intros Hwf. split; [|split; [simpl; lia|]]; simpl.
  - intros a oa. simpl. destruct (decide (a = next_oid w)) as [->|Hne].
    + intros _. lia.
    + rewrite lookup_insert_ne by done. intros Ha.
      pose proof (Hwf _ _ Ha). lia.
  - intros a. simpl. destruct (heap w !! a) eqn:Ha.
    + pose proof (Hwf _ _ Ha). rewrite lookup_insert_ne by lia.
      rewrite Ha. by intros ? ? [= <-].
    + intros Hlt. rewrite lookup_insert_ne by lia. done.
Qed.

Lemma preserves_weaken {A} (P : World → Prop) (m : M A) :
  preserves m → preserves_if P m.
Proof. intros Hm w x w' _. by apply Hm. Qed.

Lemma preserves_ret {A} (x : A) : preserves (mret x).
Proof. intros w y w' _ [= _ <-]. apply evolves_refl. Qed.

Lemma preserves_fault {A} : preserves (@fault A).
Proof. intros w y w' _ [=]. Qed.

Lemma preserves_bind {A B} (P : World → Prop) (m : M A) (k : A → M B) :
  preserves_if P m → (∀ x, preserves (k x)) → preserves_if P (m ≫= k).
Proof.
  intros Hm Hk w y w' HP. unfold mbind, M_bind.
  destruct (m w) as [[x w1]|] eqn:Hmw; [|done].
  intros Hkw. eapply evolves_trans; [by eapply Hm|by eapply Hk].
Qed.

(** After [load this] the continuation runs in a store where [this] holds
    the value read. *)
Lemma preserves_load {A} this (k : LLBC_Object → M A) :
  (∀ o, preserves_if (λ w, heap w !! this = Some o) (k o)) →
  preserves (load this ≫= k).
Proof.
  intros Hk w y w' _. unfold mbind, M_bind, load.
  destruct (heap w !! this) as [o|] eqn:Hthis; [|done].
  by apply (Hk o).
Qed.

Lemma preserves_load_only this : preserves (load this).
Proof.
  intros w o w' _. unfold load. destruct (heap w !! this); [|done].
  intros [= _ <-]. apply evolves_refl.
Qed.

Lemma preserves_load_stack {A} s (k : LLBC_AutoReleasePoolStack → M A) :
  (∀ st, preserves (k st)) → preserves (load_stack s ≫= k).
Proof.
  intros Hk w y w' _. unfold mbind, M_bind, load_stack.
  destruct (stacks w !! s) as [st|]; [|done]. by apply (Hk st).
Qed.

Lemma preserves_store this o o' :
  (∀ s, _poolStack o = Some s → _poolStack o' = Some s) →
  preserves_if (λ w, heap w !! this = Some o) (store this o').
Proof. intros Hkeep w [] w' Hthis [= <-]. by eapply evolves_insert. Qed.

Lemma preserves_store_stack s st : preserves (store_stack s st).
Proof. intros w [] w' _ [= <-]. apply evolves_stacks. Qed.

Lemma preserves_free this : preserves (free this).
Proof. intros w [] w' _ [= <-]. apply evolves_delete. Qed.

Lemma preserves_new : preserves LLBC_Object_new.
Proof. intros w a w' _ [= _ <-]. apply evolves_new. Qed.

Create HintDb preserves.
#[local] Hint Resolve preserves_ret preserves_fault preserves_store_stack
  preserves_free preserves_new : preserves.

Lemma preserves_seq {A B} (m : M A) (k : A → M B) :
  preserves m → (∀ x, preserves (k x)) → preserves (m ≫= k).
Proof. apply preserves_bind. Qed.

Lemma preserves_AddObject s this : preserves (AddObject s this).
Proof.
  unfold AddObject. apply preserves_load_stack. intros [|top rest].
  - apply preserves_ret.
  - apply preserves_load. intros obj.
    apply preserves_bind; [by apply preserves_store|]. intros _.
    apply preserves_seq; auto with preserves.
Qed.

Lemma preserves_RemoveObject s this : preserves (RemoveObject s this).
Proof.
  unfold RemoveObject. apply preserves_load_stack. intros st.
  apply preserves_store_stack.
Qed.

Lemma preserves_Delete this : preserves (LLBC_Delete this).
Proof.
  unfold LLBC_Delete, LLBC_Object_dtor. apply preserves_bind; [|auto with preserves].
  apply preserves_weaken, preserves_load. intros o. apply preserves_weaken.
  destruct (_poolStack o); [|apply preserves_ret].
  case_bool_decide; [apply preserves_RemoveObject|apply preserves_ret].
Qed.

Lemma preserves_Release this : preserves (Release this).
Proof.
  unfold Release. apply preserves_load. intros o. simpl.
  apply preserves_bind; [by apply preserves_store|]. intros _.
  case_bool_decide; [apply preserves_Delete|apply preserves_ret].
Qed.

Lemma preserves_Retain this : preserves (Retain this).
Proof. unfold Retain. apply preserves_load. intros o. by apply preserves_store. Qed.

Lemma preserves_SafeRetain this : preserves (SafeRetain this).
Proof.
  unfold SafeRetain, LLBC_AtomicFetchAndAdd.
  apply preserves_bind; [|auto with preserves].
  apply preserves_weaken, preserves_load. intros o.
  apply preserves_bind; [by apply preserves_store|auto with preserves].
Qed.

Lemma preserves_SafeRelease this : preserves (SafeRelease this).
Proof.
  unfold SafeRelease, LLBC_AtomicFetchAndSub. apply preserves_bind.
  - apply preserves_weaken, preserves_load. intros o.
    apply preserves_bind; [by apply preserves_store|auto with preserves].
  - intros old. case_bool_decide; [apply preserves_Delete|apply preserves_ret].
Qed.

(** The one place that writes [_poolStack]: under [if (!_poolStack)]. *)
Lemma preserves_AutoRelease tls this : preserves (AutoRelease tls this).
Proof.
  unfold AutoRelease. apply preserves_load. intros o. apply preserves_bind.
  - destruct (_poolStack o) eqn:Hps.
    + apply preserves_weaken, preserves_ret.
    + apply preserves_store. by rewrite Hps.
  - intros _. apply preserves_load. intros o'. apply preserves_weaken.
    destruct (_poolStack o'); [apply preserves_AddObject|apply preserves_fault].
Qed.

Lemma preserves_discard {A} (m : M A) w w' :
  preserves m → discard m w = Some w' → evolves w w'.
Proof.
  intros Hm. unfold discard. destruct (m w) as [[x w1]|] eqn:Hmw; [|done].
  intros [= <-]. by eapply Hm.
Qed.

Lemma step_evolves op w w' : step op w = Some w' → evolves w w'.
Proof.
  destruct op; simpl; apply preserves_discard.
  - apply preserves_new.
  - unfold GetRefCount. apply preserves_load. intros o.
    apply preserves_weaken, preserves_ret.
  - apply preserves_Release.
  - apply preserves_SafeRetain.
  - apply preserves_SafeRelease.
  - apply preserves_Retain.
  - apply preserves_AutoRelease.
  - unfold Clone. apply preserves_seq; [apply preserves_load_only|].
    intros _. apply preserves_new.
  - unfold Observe. apply preserves_seq; [apply preserves_load_only|].
    intros _. apply preserves_ret.
Qed.

Lemma run_evolves ops : ∀ w w', run ops w = Some w' → evolves w w'.
Proof.
  induction ops as [|op ops IH]; intros w w'; simpl.
  - intros [= <-]. apply evolves_refl.
  - destruct (step op w) as [w1|] eqn:Hstep; [|done].
    intros Hrun. eapply evolves_trans; [by eapply step_evolves|by apply IH].
Qed.

(** C8.  Once [_poolStack] is set, no sequence of operations on objects
    (on this one or on others, from whatever thread) changes it for as long
    as the object lives: [AutoRelease] writes the field only while it is
    null, and nothing else writes it. *)
Theorem poolStack_set_once (ops : list ObjOp) (w w' : World)
    (this : oid) (o o' : LLBC_Object) (s : stack_id) :
  wf w →
  run ops w = Some w' →
  heap w !! this = Some o → _poolStack o = Some s →
  heap w' !! this = Some o' →
  _poolStack o' = Some s.
Proof.
  intros Hwf Hrun Hthis Hs Hthis'.
  destruct (run_evolves ops w w' Hrun Hwf) as (_ & _ & Hp).
  specialize (Hp this). rewrite Hthis in Hp. eauto.
Qed.

Lemma poolStack_set_once_witness :
  let w := mkWorld {[ 0%nat := mkObject 1 1 (Some 0%nat) ]}
             {[ 0%nat := [[0%nat]]; 5%nat := [[]] ]} 1%nat in
  let ops := [OpRetain 0%nat; OpAutoRelease (mkTls (Some 5%nat)) 0%nat;
              OpNew; OpAutoRelease (mkTls (Some 5%nat)) 1%nat;
              OpSafeRelease 1%nat; OpRelease 0%nat] in
  ∃ w' o', run ops w = Some w' ∧ heap w' !! 0%nat = Some o'
           ∧ _poolStack o' = Some 0%nat.
Proof.
  intros w ops.
  eexists _, _. split; [vm_compute; reflexivity|].
  split; [vm_compute; reflexivity|].
  eapply (poolStack_set_once ops w _ 0%nat (mkObject 1 1 (Some 0%nat)) _ 0%nat).
  - intros a o Ha. subst w. simpl in *.
    apply lookup_singleton_Some in Ha as [<- _]. lia.
  - vm_compute. reflexivity.
  - vm_compute. reflexivity.
  - reflexivity.
  - vm_compute. reflexivity.
Defined.

(** ** More on the reference count *)

Lemma run_app ops1 : ∀ ops2 w,
  run (ops1 ++ ops2) w =
    match run ops1 w with
    | Some w1 => run ops2 w1
    | None => None
    end.
Proof.
  induction ops1 as [|op ops1 IH]; intros ops2 w; simpl; [done|].
  destruct (step op w); [apply IH|done].
Qed.

Lemma with_ref_lookup w this o r :
  heap (with_ref w this o r) !! this = Some (set_ref o r).
Proof. apply lookup_insert_eq. Qed.

Lemma with_ref_twice w this o r1 r2 :
  with_ref (with_ref w this o r1) this (set_ref o r1) r2 = with_ref w this o r2.
Proof. unfold with_ref. simpl. by rewrite insert_insert_eq. Qed.

Lemma with_ref_same w this o :
  heap w !! this = Some o → with_ref w this o (_ref o) = w.
Proof.
  intros Hthis. unfold with_ref. rewrite set_ref_id, insert_id by done.
  apply World_eta.
Qed.

Lemma step_Retain w this o :
  heap w !! this = Some o → _ref o < INT_MAX → INT_MIN <= _ref o →
  step (OpRetain this) w = Some (with_ref w this o (_ref o + 1)).
Proof.
  intros Hthis Hmax Hmin. simpl. unfold discard.
  rewrite (Retain_alive w this o Hthis).
  rewrite wrap_int_small by (unfold in_int; lia). done.
Qed.

(** A [Release] that does not reach zero. *)
Lemma step_Release_keeps w this o :
  heap w !! this = Some o → _ref o <= INT_MAX → INT_MIN < _ref o → _ref o ≠ 1 →
  step (OpRelease this) w = Some (with_ref w this o (_ref o - 1)).
Proof.
  intros Hthis Hmax Hmin Hne. simpl. unfold discard.
  rewrite (Release_alive w this o Hthis). simpl.
  rewrite wrap_int_small by (unfold in_int; lia).
  rewrite bool_decide_eq_false_2 by lia. done.
Qed.

Lemma run_Retains n : ∀ w this o,
  heap w !! this = Some o → INT_MIN <= _ref o → _ref o + Z.of_nat n <= INT_MAX →
  run (replicate n (OpRetain this)) w
  = Some (with_ref w this o (_ref o + Z.of_nat n)).
Proof.
  induction n as [|n IH]; intros w this o Hthis Hmin Hmax.
  - simpl. rewrite Z.add_0_r. by rewrite with_ref_same.
  - change (replicate (S n) (OpRetain this))
      with (OpRetain this :: replicate n (OpRetain this)).
    cbn [run]. rewrite (step_Retain w this o) by (done || lia).
    rewrite (IH _ this (set_ref o (_ref o + 1))); simpl;
      [|apply lookup_insert_eq|lia|lia].
    rewrite with_ref_twice. do 2 f_equal. lia.
Qed.

Lemma run_Releases n : ∀ w this o,
  heap w !! this = Some o → _ref o <= INT_MAX → Z.of_nat n < _ref o →
  run (replicate n (OpRelease this)) w
  = Some (with_ref w this o (_ref o - Z.of_nat n)).
Proof.
  induction n as [|n IH]; intros w this o Hthis Hmax Hlt.
  - simpl. rewrite Z.sub_0_r. by rewrite with_ref_same.
  - change (replicate (S n) (OpRelease this))
      with (OpRelease this :: replicate n (OpRelease this)).
    cbn [run]. rewrite (step_Release_keeps w this o) by (done || unfold INT_MIN; lia).
    rewrite (IH _ this (set_ref o (_ref o - 1))); simpl;
      [|apply lookup_insert_eq|lia|lia].
    rewrite with_ref_twice. do 2 f_equal. lia.
Qed.

(** X1.  [n] calls of [Retain()] followed by [n] calls of [Release()]
    leave the whole store as it was, as long as the count does not pass
    [INT_MAX] on the way up. *)
Theorem Retains_Releases_balance (n : nat) (w : World) (this : oid) (o : LLBC_Object) :
  heap w !! this = Some o →
  1 <= _ref o →
  _ref o + Z.of_nat n <= INT_MAX →
  run (replicate n (OpRetain this) ++ replicate n (OpRelease this)) w = Some w.
Proof.
  intros Hthis Hpos Hmax. rewrite run_app.
  rewrite (run_Retains n w this o) by (done || unfold INT_MIN; lia).
  rewrite (run_Releases n _ this (set_ref o (_ref o + Z.of_nat n)));
    [|apply with_ref_lookup|simpl; lia|simpl; lia].
  rewrite with_ref_twice. simpl.
  replace (_ref o + Z.of_nat n - Z.of_nat n) with (_ref o) by lia.
  by rewrite with_ref_same.
Qed.

Lemma Retains_Releases_balance_witness :
  let w := mkWorld {[ 0%nat := mkObject 1 0 None ]} ∅ 1%nat in
  run (replicate 3 (OpRetain 0%nat) ++ replicate 3 (OpRelease 0%nat)) w = Some w.
Proof.
  apply (Retains_Releases_balance 3 _ 0%nat (mkObject 1 0 None)).
  - reflexivity.
  - simpl. lia.
  - simpl. unfold INT_MAX. lia.
Defined.

(** X2.  The count is the number of [Release()] calls the object takes: with
    [_ref = r >= 1], after [k < r] calls it is alive with count [r - k] and
    nothing else in the store has changed; the [r]-th call destroys it. *)
Theorem Release_countdown (w : World) (this : oid) (o : LLBC_Object) :
  heap w !! this = Some o →
  1 <= _ref o <= INT_MAX →
  stack_ok w o →
  (∀ k : nat, Z.of_nat k < _ref o →
     run (replicate k (OpRelease this)) w
     = Some (with_ref w this o (_ref o - Z.of_nat k)))
  ∧ ∃ w', run (replicate (Z.to_nat (_ref o)) (OpRelease this)) w = Some w'
          ∧ heap w' !! this = None.
Proof.
  intros Hthis Href Hok. split.
  - intros k Hk. apply run_Releases; (done || lia).
  - set (k := Z.to_nat (_ref o - 1)).
    replace (Z.to_nat (_ref o)) with (k + 1)%nat by (subst k; lia).
    rewrite replicate_add, run_app.
    rewrite (run_Releases k w this o) by (done || subst k; lia).
    replace (_ref o - Z.of_nat k) with 1 by (subst k; lia).
    simpl. unfold discard.
    rewrite (Release_alive _ this (set_ref o 1)) by apply with_ref_lookup.
    simpl.
    destruct (LLBC_Delete_alive
                (mkWorld (<[this := set_ref (set_ref o 1) 0]>
                            (heap (with_ref w this o 1)))
                   (stacks w) (next_oid w)) this (set_ref (set_ref o 1) 0))
      as (w' & Hdel & Hheap & _); [apply lookup_insert_eq|done|].
    change (wrap_int (1 - 1)) with 0. simpl in Hdel. rewrite Hdel.
    exists w'. split; [done|]. rewrite Hheap. apply lookup_delete_eq.
Qed.

Lemma Release_countdown_witness :
  let o := mkObject 3 0 None in
  let w := mkWorld {[ 0%nat := o ]} ∅ 1%nat in
  (∀ k : nat, Z.of_nat k < _ref o →
     run (replicate k (OpRelease 0%nat)) w
     = Some (with_ref w 0%nat o (_ref o - Z.of_nat k)))
  ∧ ∃ w', run (replicate (Z.to_nat (_ref o)) (OpRelease 0%nat)) w = Some w'
          ∧ heap w' !! 0%nat = None.
Proof.
  apply (Release_countdown _ 0%nat (mkObject 3 0 None)).
  - reflexivity.
  - simpl. unfold INT_MAX. lia.
  - intros s Hs. discriminate Hs.
Defined.

(** X3.  [GetRefCount()] writes nothing and reports the count: after [n]
    calls of [Retain()] it returns the old count plus [n]. *)
Theorem GetRefCount_after_Retains (n : nat) (w : World) (this : oid) (o : LLBC_Object) :
  heap w !! this = Some o →
  INT_MIN <= _ref o →
  _ref o + Z.of_nat n <= INT_MAX →
  GetRefCount this w = Some (_ref o, w)
  ∧ ∃ w', run (replicate n (OpRetain this)) w = Some w'
          ∧ GetRefCount this w' = Some (_ref o + Z.of_nat n, w').
Proof.
  intros Hthis Hmin Hmax. split.
  - unfold GetRefCount. unfold_M. by rewrite Hthis.
  - eexists. split; [by apply run_Retains|].
    unfold GetRefCount. unfold_M. by rewrite lookup_insert_eq.
Qed.

Lemma GetRefCount_after_Retains_witness :
  let w := mkWorld {[ 0%nat := mkObject 1 0 None ]} ∅ 1%nat in
  GetRefCount 0%nat w = Some (1, w)
  ∧ ∃ w', run (replicate 4 (OpRetain 0%nat)) w = Some w'
          ∧ GetRefCount 0%nat w' = Some (5, w').
Proof.
  apply (GetRefCount_after_Retains 4 _ 0%nat (mkObject 1 0 None)).
  - reflexivity.
  - simpl. unfold INT_MIN. lia.
  - simpl. unfold INT_MAX. lia.
Defined.

(** ** Destruction, enrolment, cloning *)

(** X4.  The last [Release()] (or [SafeRelease()]) of an object that is in no
    pool ([_autoRef == 0] or no pool stack) takes the object out of the
    store and nothing else: the destructor does not call into a pool
    stack. *)
Theorem last_Release_outside_pools (w : World) (this : oid) (o : LLBC_Object) :
  heap w !! this = Some o →
  _ref o = 1 →
  _autoRef o = 0 ∨ _poolStack o = None →
  Release this w
  = Some (tt, mkWorld (delete this (heap w)) (stacks w) (next_oid w))
  ∧ SafeRelease this w
    = Some (tt, mkWorld (delete this (heap w)) (stacks w) (next_oid w)).
Proof.
  intros Hthis Hone Hfree.
  assert (Hdel : ∀ o', _autoRef o' = _autoRef o → _poolStack o' = _poolStack o →
            LLBC_Delete this
              (mkWorld (<[this := o']> (heap w)) (stacks w) (next_oid w))
            = Some (tt, mkWorld (delete this (heap w)) (stacks w) (next_oid w))).
  { intros o' Har Hps. unfold LLBC_Delete, LLBC_Object_dtor. unfold_M.
    rewrite lookup_insert_eq, Har, Hps. simpl.
    destruct Hfree as [Hzero| ->].
    - rewrite Hzero. destruct (_poolStack o); simpl; by rewrite delete_insert_eq.
    - simpl. by rewrite delete_insert_eq. }
  split.
  - rewrite (Release_alive w this o Hthis). simpl. rewrite Hone.
    change (wrap_int (1 - 1)) with 0. simpl. by apply Hdel.
  - unfold SafeRelease, LLBC_AtomicFetchAndSub. unfold_M.
    rewrite Hthis, Hone. simpl. by apply Hdel.
Qed.

Lemma last_Release_outside_pools_witness :
  let o := mkObject 1 0 (Some 0%nat) in
  let w := mkWorld {[ 0%nat := o ]} {[ 0%nat := [[]] ]} 1%nat in
  Release 0%nat w
  = Some (tt, mkWorld (delete 0%nat (heap w)) (stacks w) (next_oid w))
  ∧ SafeRelease 0%nat w
    = Some (tt, mkWorld (delete 0%nat (heap w)) (stacks w) (next_oid w)).
Proof.
  apply (last_Release_outside_pools _ 0%nat (mkObject 1 0 (Some 0%nat))).
  - reflexivity.
  - reflexivity.
  - left. reflexivity.
Defined.

(** With [_poolStack] set, [AutoRelease] is the call of [AddObject] through
    it. *)
Lemma AutoRelease_bound tls w this o s :
  heap w !! this = Some o → _poolStack o = Some s →
  AutoRelease tls this w = AddObject s this w.
Proof.
  intros Hthis Hs. unfold AutoRelease. unfold_M.
  rewrite Hthis, Hs. simpl. by rewrite Hthis, Hs.
Qed.

(** An [AutoRelease] that returns leaves [_poolStack] set. *)
Lemma AutoRelease_latches tls this w rc w' :
  AutoRelease tls this w = Some (rc, w') →
  ∃ o' s, heap w' !! this = Some o' ∧ _poolStack o' = Some s.
Proof.
  unfold AutoRelease, AddObject. unfold_M.
  destruct (heap w !! this) as [[r ar ps]|] eqn:Hthis; [|done]. simpl.
  destruct ps as [s|]; simpl.
  - rewrite Hthis. simpl.
    destruct (stacks w !! s) as [[|top rest]|]; simpl; [| |done].
    + intros [= _ <-]. eauto.
    + rewrite Hthis. simpl. intros [= _ <-]. simpl.
      rewrite lookup_insert_eq. eauto.
  - rewrite lookup_insert_eq. simpl.
    destruct (objbaseTls_poolStack tls) as [s|]; simpl; [|done].
    destruct (stacks w !! s) as [[|top rest]|]; simpl; [| |done].
    + intros [= _ <-]. simpl. rewrite lookup_insert_eq. eauto.
    + rewrite lookup_insert_eq. simpl. intros [= _ <-]. simpl.
      rewrite lookup_insert_eq. eauto.
Qed.

(** X5.  An object stays with the pool stack of the thread that first
    called [AutoRelease()] on it: once one call has returned, a later call
    does the same whatever the calling thread's pool stack is, also when
    that thread has none. *)
Theorem AutoRelease_ignores_later_threads (tls1 tls2 : __LLBC_LibTls)
    (this : oid) (w w' : World) (rc : Z) :
  AutoRelease tls1 this w = Some (rc, w') →
  AutoRelease tls2 this w' = AutoRelease tls1 this w'.
Proof.
  intros Hfirst.
  destruct (AutoRelease_latches _ _ _ _ _ Hfirst) as (o' & s & Hthis' & Hs).
  by rewrite (AutoRelease_bound tls2 w' this o' s),
             (AutoRelease_bound tls1 w' this o' s).
Qed.

Lemma AutoRelease_ignores_later_threads_witness :
  let w := mkWorld {[ 0%nat := mkObject 1 0 None ]}
             {[ 0%nat := [[]]; 5%nat := [[]] ]} 1%nat in
  ∃ rc w', AutoRelease (mkTls (Some 0%nat)) 0%nat w = Some (rc, w')
           ∧ AutoRelease (mkTls None) 0%nat w'
             = AutoRelease (mkTls (Some 0%nat)) 0%nat w'.
Proof.
  intros w. eexists _, _.
  assert (Hfirst : AutoRelease (mkTls (Some 0%nat)) 0%nat w
            = Some (LLBC_OK,
                    mkWorld {[ 0%nat := mkObject 1 1 (Some 0%nat) ]}
                      {[ 0%nat := [[0%nat]]; 5%nat := [[]] ]} 1%nat))
    by (vm_compute; reflexivity).
  split; [exact Hfirst|].
  exact (AutoRelease_ignores_later_threads _ (mkTls None) _ _ _ _ Hfirst).
Defined.

(** X6.  [Clone()] makes a new object with count one that is in no pool,
    whatever the count and the enrolment of the original, and changes
    nothing else in the store. *)
Theorem Clone_is_fresh (w : World) (this : oid) (o : LLBC_Object) :
  wf w →
  heap w !! this = Some o →
  ∃ c w', Clone this w = Some (c, w')
          ∧ c ≠ this ∧ heap w !! c = None
          ∧ heap w' !! c = Some (mkObject 1 0 None)
          ∧ (∀ a, a ≠ c → heap w' !! a = heap w !! a)
          ∧ stacks w' = stacks w.
Proof.
  intros Hwf Hthis. exists (next_oid w). eexists. split.
  { unfold Clone. unfold_M. rewrite Hthis. reflexivity. }
  pose proof (Hwf _ _ Hthis) as Hlt. simpl.
  split; [lia|]. split.
  { destruct (heap w !! next_oid w) as [o'|] eqn:Hnext; [|done].
    pose proof (Hwf _ _ Hnext). lia. }
  split; [apply lookup_insert_eq|]. split; [|done].
  intros a Ha. by rewrite lookup_insert_ne.
Qed.

Lemma Clone_is_fresh_witness :
  let w := mkWorld {[ 0%nat := mkObject 7 2 (Some 0%nat) ]}
             {[ 0%nat := [[0%nat; 0%nat]] ]} 1%nat in
  ∃ c w', Clone 0%nat w = Some (c, w')
          ∧ c ≠ 0%nat ∧ heap w !! c = None
          ∧ heap w' !! c = Some (mkObject 1 0 None)
          ∧ (∀ a, a ≠ c → heap w' !! a = heap w !! a)
          ∧ stacks w' = stacks w.
Proof.
  apply (Clone_is_fresh _ 0%nat (mkObject 7 2 (Some 0%nat))).
  - intros a o Ha. simpl in *. apply lookup_singleton_Some in Ha as [<- _]. lia.
  - reflexivity.
Defined.

(** ** Operations on one object leave the others alone *)

Lemma frames_ret {A} this (x : A) : frames this (mret x).
Proof. by intros w y w' [= _ <-]. Qed.

Lemma frames_fault {A} this : frames this (@fault A).
Proof. intros w y w' [=]. Qed.

Lemma frames_bind {A B} this (m : M A) (k : A → M B) :
  frames this m → (∀ x, frames this (k x)) → frames this (m ≫= k).
Proof.
  intros Hm Hk w y w'. unfold mbind, M_bind.
  destruct (m w) as [[x w1]|] eqn:Hmw; [|done].
  intros Hkw other Hother.
  rewrite (Hk x _ _ _ Hkw other Hother). by eapply Hm.
Qed.

Lemma frames_load this a : frames this (load a).
Proof.
  intros w o w'. unfold load. destruct (heap w !! a); [|done].
  by intros [= _ <-].
Qed.

Lemma frames_store this o : frames this (store this o).
Proof.
  intros w [] w' [= <-] other Hother. simpl. by rewrite lookup_insert_ne.
Qed.

Lemma frames_free this : frames this (free this).
Proof.
  intros w [] w' [= <-] other Hother. simpl. by rewrite lookup_delete_ne.
Qed.

Lemma frames_load_stack this s : frames this (load_stack s).
Proof.
  intros w st w'. unfold load_stack. destruct (stacks w !! s); [|done].
  by intros [= _ <-].
Qed.

Lemma frames_store_stack this s st : frames this (store_stack s st).
Proof. by intros w [] w' [= <-]. Qed.

Create HintDb frames.
#[local] Hint Resolve frames_ret frames_fault frames_load frames_store
  frames_free frames_load_stack frames_store_stack : frames.

Ltac frames_auto :=
  repeat first
    [ apply frames_bind; [|intros ?]
    | case_bool_decide
    | match goal with |- frames _ (match ?x with _ => _ end) => destruct x end
    | solve [auto with frames] ].

Lemma frames_AddObject s this : frames this (AddObject s this).
Proof. unfold AddObject. frames_auto. Qed.

Lemma frames_Delete this : frames this (LLBC_Delete this).
Proof. unfold LLBC_Delete, LLBC_Object_dtor, RemoveObject. frames_auto. Qed.

Lemma frames_Release this : frames this (Release this).
Proof.
  unfold Release. apply frames_bind; [auto with frames|]. intros o. simpl.
  apply frames_bind; [auto with frames|]. intros _.
  case_bool_decide; [apply frames_Delete|apply frames_ret].
Qed.

Lemma frames_SafeRelease this : frames this (SafeRelease this).
Proof.
  unfold SafeRelease, LLBC_AtomicFetchAndSub.
  apply frames_bind; [frames_auto|]. intros old.
  case_bool_decide; [apply frames_Delete|apply frames_ret].
Qed.

Lemma frames_AutoRelease tls this : frames this (AutoRelease tls this).
Proof.
  unfold AutoRelease. apply frames_bind; [auto with frames|]. intros o.
  apply frames_bind; [destruct (_poolStack o); auto with frames|]. intros _.
  apply frames_bind; [auto with frames|]. intros o'.
  destruct (_poolStack o'); [apply frames_AddObject|apply frames_fault].
Qed.

Lemma frames_discard {A} this (m : M A) w w' other :
  frames this m → discard m w = Some w' → other ≠ this →
  heap w' !! other = heap w !! other.
Proof.
  intros Hm. unfold discard. destruct (m w) as [[x w1]|] eqn:Hmw; [|done].
  intros [= <-]. by eapply Hm.
Qed.

(** X7.  Reference counting is per object: whatever operation is called on
    one object (or the construction of a new one), every other live object
    keeps its count, its enrolment count and its pool stack, and stays
    alive. *)
Theorem other_objects_untouched (op : ObjOp) (w w' : World)
    (other : oid) (oo : LLBC_Object) :
  wf w →
  heap w !! other = Some oo →
  op_target op ≠ Some other →
  step op w = Some w' →
  heap w' !! other = Some oo.
Proof.
  intros Hwf Hother Htarget Hstep. rewrite <- Hother.
  pose proof (Hwf _ _ Hother) as Hlt.
  assert (Hnew : ∀ w1 c w2, heap w1 = heap w → next_oid w1 = next_oid w →
            LLBC_Object_new w1 = Some (c, w2) →
            heap w2 !! other = heap w !! other).
  { intros w1 c w2 Hheap Hnext [= _ <-]. simpl.
    rewrite lookup_insert_ne by lia. by rewrite Hheap. }
  destruct op as [|this|this|this|this|this|tls this|this|this]; simpl in *.
  - unfold discard in Hstep.
    destruct (LLBC_Object_new w) as [[c w2]|] eqn:Hc; [|done].
    injection Hstep as <-. by eapply Hnew.
  - eapply (frames_discard this); [|exact Hstep|congruence].
    unfold GetRefCount. frames_auto.
  - eapply (frames_discard this); [apply frames_Release|exact Hstep|congruence].
  - eapply (frames_discard this); [|exact Hstep|congruence].
    unfold SafeRetain, LLBC_AtomicFetchAndAdd. frames_auto.
  - eapply (frames_discard this); [apply frames_SafeRelease|exact Hstep|congruence].
  - eapply (frames_discard this); [|exact Hstep|congruence].
    unfold Retain. frames_auto.
  - eapply (frames_discard this); [apply frames_AutoRelease|exact Hstep|congruence].
  - unfold discard, Clone in Hstep. unfold_M.
    destruct (heap w !! this); [|done].
    destruct (LLBC_Object_new w) as [[c w2]|] eqn:Hc; [|done].
    injection Hstep as <-. by eapply Hnew.
  - eapply (frames_discard this); [|exact Hstep|congruence].
    unfold Observe. frames_auto.
Qed.

Lemma other_objects_untouched_witness :
  let w := mkWorld {[ 0%nat := mkObject 1 1 (Some 0%nat);
                      1%nat := mkObject 2 0 None ]}
             {[ 0%nat := [[0%nat]] ]} 2%nat in
  ∃ w', step (OpRelease 0%nat) w = Some w'
        ∧ heap w' !! 0%nat = None
        ∧ heap w' !! 1%nat = Some (mkObject 2 0 None).
Proof.
  intros w. eexists.
  assert (Hstep : step (OpRelease 0%nat) w
            = Some (mkWorld {[ 1%nat := mkObject 2 0 None ]}
                      {[ 0%nat := [[]] ]} 2%nat))
    by (vm_compute; reflexivity).
  split; [exact Hstep|]. split; [reflexivity|].
  apply (other_objects_untouched (OpRelease 0%nat) w _ 1%nat (mkObject 2 0 None)).
  - intros a o Ha. subst w. simpl in *.
    destruct (decide (a = 0%nat)) as [->|Hne]; [lia|].
    rewrite lookup_insert_ne in Ha by done.
    apply lookup_singleton_Some in Ha as [<- _]. lia.
  - reflexivity.
  - discriminate.
  - exact Hstep.
Defined.

(** ** Live objects are owned *)

(** When [LLBC_Delete] returns, the object is gone. *)
Lemma LLBC_Delete_gone this w w' :
  LLBC_Delete this w = Some (tt, w') → heap w' !! this = None.
Proof.
  unfold LLBC_Delete, LLBC_Object_dtor, RemoveObject. unfold_M.
  destruct (heap w !! this) as [o|]; [|done].
  destruct (_poolStack o) as [s|]; simpl.
  - case_bool_decide; simpl.
    + unfold_M. destruct (stacks w !! s); [|done]. simpl.
      intros [= <-]. apply lookup_delete_eq.
    + intros [= <-]. apply lookup_delete_eq.
  - intros [= <-]. apply lookup_delete_eq.
Qed.

(** Sequentially the [Safe] calls are the plain ones. *)
Lemma SafeRetain_plain this w : SafeRetain this w = Retain this w.
Proof.
  unfold SafeRetain, Retain, LLBC_AtomicFetchAndAdd. unfold_M.
  by destruct (heap w !! this).
Qed.

Lemma SafeRelease_plain this w o :
  heap w !! this = Some o → in_int (_ref o) →
  SafeRelease this w = Release this w.
Proof.
  intros Hthis Hin. unfold SafeRelease, Release, LLBC_AtomicFetchAndSub.
  unfold_M. rewrite Hthis.
  pose proof (wrap_int_pred_zero (_ref o) Hin) as Hz.
  do 2 case_bool_decide; tauto.
Qed.

(** [AutoRelease] writes no count. *)
Lemma AutoRelease_refs tls this w rc w' :
  AutoRelease tls this w = Some (rc, w') →
  ∀ a, _ref <$> heap w' !! a = _ref <$> heap w !! a.
Proof.
  unfold AutoRelease, AddObject. unfold_M.
  destruct (heap w !! this) as [[r ar ps]|] eqn:Hthis; [|done]. simpl.
  assert (Hrefs : ∀ (o' : LLBC_Object) a, _ref o' = r →
            _ref <$> <[this := o']> (heap w) !! a = _ref <$> heap w !! a).
  { intros o' a Hr. destruct (decide (a = this)) as [->|Hne].
    - by rewrite lookup_insert_eq, Hthis; simpl; f_equal.
    - by rewrite lookup_insert_ne. }
  destruct ps as [s|]; simpl.
  - rewrite Hthis. simpl.
    destruct (stacks w !! s) as [[|top rest]|]; simpl; [| |done].
    + by intros [= _ <-].
    + rewrite Hthis. simpl. intros [= _ <-] a. simpl. by apply Hrefs.
  - rewrite lookup_insert_eq. simpl.
    destruct (objbaseTls_poolStack tls) as [s|]; simpl; [|done].
    destruct (stacks w !! s) as [[|top rest]|]; simpl; [| |done].
    + intros [= _ <-] a. simpl. by apply Hrefs.
    + rewrite lookup_insert_eq. simpl. intros [= _ <-] a. simpl.
      rewrite insert_insert_eq. by apply Hrefs.
Qed.

Lemma Retain_counts this w w' :
  counts_positive w → no_overflow (OpRetain this) w →
  Retain this w = Some (tt, w') → counts_positive w'.
Proof.
  intros Hpos Hmax Hret a o'.
  destruct (heap w !! this) as [o|] eqn:Hthis.
  - rewrite (Retain_alive w this o Hthis) in Hret. injection Hret as <-.
    simpl. destruct (decide (a = this)) as [->|Hne].
    + rewrite lookup_insert_eq. intros [= <-]. simpl.
      pose proof (Hpos _ _ Hthis). pose proof (Hmax _ Hthis).
      rewrite wrap_int_small by (unfold in_int, INT_MIN; lia). lia.
    + rewrite lookup_insert_ne by done. apply Hpos.
  - unfold Retain in Hret. unfold_M. by rewrite Hthis in Hret.
Qed.

Lemma Release_counts this w w' :
  counts_positive w → Release this w = Some (tt, w') → counts_positive w'.
Proof.
  intros Hpos Hrel a o'.
  destruct (heap w !! this) as [o|] eqn:Hthis.
  - pose proof (Hpos _ _ Hthis) as Href.
    destruct (decide (a = this)) as [->|Hne].
    + rewrite (Release_alive w this o Hthis) in Hrel. simpl in Hrel.
      rewrite wrap_int_small in Hrel by (unfold in_int, INT_MIN; lia).
      case_bool_decide.
      * apply LLBC_Delete_gone in Hrel. by rewrite Hrel.
      * injection Hrel as <-. simpl. rewrite lookup_insert_eq.
        intros [= <-]. simpl. lia.
    + rewrite (frames_Release this w tt w' Hrel a Hne). apply Hpos.
  - unfold Release in Hrel. unfold_M. by rewrite Hthis in Hrel.
Qed.

(** X15.  Live objects stay owned: if every live object has a count of at
    least one, so it is after any operation, on the one condition that a
    [Retain()] or [SafeRetain()] is not called at [INT_MAX].  [Release()]
    never leaves a live object with count zero. *)
Theorem live_objects_stay_owned (op : ObjOp) (w w' : World) :
  counts_positive w →
  no_overflow op w →
  step op w = Some w' →
  counts_positive w'.
Proof.
  intros Hpos Hmax Hstep.
  assert (Hnew : ∀ w1 c w2, heap w1 = heap w →
            LLBC_Object_new w1 = Some (c, w2) → counts_positive w2).
  { intros w1 c w2 Hheap [= _ <-] a o'. simpl.
    destruct (decide (a = next_oid w1)) as [->|Hne].
    - rewrite lookup_insert_eq. intros [= <-]. simpl. unfold INT_MAX. lia.
    - rewrite lookup_insert_ne, Hheap by done. apply Hpos. }
  assert (Hsame : ∀ {A} (m : M A) x,
            (∀ w1 y w2, m w1 = Some (y, w2) → w2 = w1) →
            m w = Some (x, w') → counts_positive w').
  { intros A m x Hm Hrun. by rewrite (Hm _ _ _ Hrun). }
  destruct op as [|this|this|this|this|this|tls this|this|this];
    simpl in Hstep; unfold discard in Hstep.
  - destruct (LLBC_Object_new w) as [[c w2]|] eqn:Hc; [|done].
    injection Hstep as <-. by eapply Hnew.
  - destruct (GetRefCount this w) as [[r w2]|] eqn:Hget; [|done].
    injection Hstep as <-. eapply Hsame; [|exact Hget].
    intros w3 y w4. unfold GetRefCount. unfold_M.
    destruct (heap w3 !! this); [|done]. by intros [= _ <-].
  - destruct (Release this w) as [[[] w2]|] eqn:Hrel; [|done].
    injection Hstep as <-. by eapply Release_counts.
  - destruct (SafeRetain this w) as [[[] w2]|] eqn:Hret; [|done].
    injection Hstep as <-. rewrite SafeRetain_plain in Hret.
    by eapply Retain_counts.
  - destruct (SafeRelease this w) as [[[] w2]|] eqn:Hrel; [|done].
    injection Hstep as <-.
    destruct (heap w !! this) as [o|] eqn:Hthis.
    + rewrite (SafeRelease_plain this w o Hthis) in Hrel.
      * by eapply Release_counts.
      * pose proof (Hpos _ _ Hthis). unfold in_int, INT_MIN. lia.
    + unfold SafeRelease, LLBC_AtomicFetchAndSub in Hrel. unfold_M.
      by rewrite Hthis in Hrel.
  - destruct (Retain this w) as [[[] w2]|] eqn:Hret; [|done].
    injection Hstep as <-. by eapply Retain_counts.
  - destruct (AutoRelease tls this w) as [[rc w2]|] eqn:Hauto; [|done].
    injection Hstep as <-. intros a o' Ha.
    pose proof (AutoRelease_refs _ _ _ _ _ Hauto a) as Hrefs.
    rewrite Ha in Hrefs. simpl in Hrefs.
    destruct (heap w !! a) as [o|] eqn:Hwa; [|done].
    injection Hrefs as ->. by eapply Hpos.
  - unfold Clone in Hstep. unfold_M. destruct (heap w !! this); [|done].
    destruct (LLBC_Object_new w) as [[c w2]|] eqn:Hc; [|done].
    injection Hstep as <-. by eapply Hnew.
  - destruct (Observe this w) as [[[] w2]|] eqn:Hobs; [|done].
    injection Hstep as <-. eapply Hsame; [|exact Hobs].
    intros w3 y w4. unfold Observe. unfold_M.
    destruct (heap w3 !! this); [|done]. by intros [= _ <-].
Qed.

Lemma live_objects_stay_owned_witness :
  let w := mkWorld {[ 0%nat := mkObject 1 0 None ]} ∅ 1%nat in
  counts_positive (mkWorld {[ 0%nat := mkObject 2 0 None ]} ∅ 1%nat).
Proof.
  intros w.
  apply (live_objects_stay_owned (OpRetain 0%nat) w).
  - intros a o Ha. subst w. simpl in Ha.
    apply lookup_singleton_Some in Ha as [_ <-]. simpl. unfold INT_MAX. lia.
  - intros o Ho. subst w. simpl in Ho.
    apply lookup_singleton_Some in Ho as [_ <-]. simpl. unfold INT_MAX. lia.
  - vm_compute. reflexivity.
Defined.

End ObjBaseFacts.

(** * Facts about ComponentInl.h *)
Module MethodsFacts.
Import LLBC_ComponentMethods.

Section Table.
Context {Variant : Type}.
Implicit Types (ms : LLBC_ComponentMethods.t Variant)
  (meth : LLBC_ComponentMethod Variant) (th : Thread Variant)
  (methName : string) (calls : list (string * LLBC_ComponentMethod Variant)).

Lemma t_eta ms : mk (_meths ms) (_methList ms) = ms.
Proof. by destruct ms. Qed.

(** The scan stops at the first pair with the name. *)
Lemma scan_app l methName n meth :
  scan (l ++ [(n, meth)]) methName =
    match scan l methName with
    | Some found => Some found
    | None => if decide (n = methName) then Some meth else None
    end.
Proof.
  induction l as [|[k v] l IH]; simpl; [done|].
  by destruct (decide (k = methName)).
Qed.

Lemma consistent_new : consistent (@new Variant).
Proof. intros methName. simpl. by rewrite lookup_empty. Qed.

(** [AddMethod] by cases. *)
Lemma AddMethod_empty_name meth ms th :
  AddMethod "" meth ms th = (LLBC_FAILED, ms, LLBC_SetLastError LLBC_ERROR_ARG th).
Proof. done. Qed.

Lemma AddMethod_repeat methName meth ms th :
  methName ≠ "" → is_Some (_meths ms !! methName) →
  AddMethod methName meth ms th
  = (LLBC_FAILED, ms, LLBC_SetLastError LLBC_ERROR_REPEAT th).
Proof.
  intros Hne [old Hold]. unfold AddMethod, emplace.
  rewrite bool_decide_eq_false_2 by done. rewrite Hold. simpl.
  by rewrite t_eta.
Qed.

Lemma AddMethod_fresh methName meth ms th :
  methName ≠ "" → _meths ms !! methName = None →
  AddMethod methName meth ms th
  = (LLBC_OK,
     mk (<[methName := meth]> (_meths ms)) (_methList ms ++ [(methName, meth)]),
     th).
Proof.
  intros Hne Hnone. unfold AddMethod, emplace.
  rewrite bool_decide_eq_false_2 by done. by rewrite Hnone.
Qed.

(** The three cases are all there are. *)
Lemma AddMethod_cases methName meth ms th :
  (methName = "" ∨ is_Some (_meths ms !! methName))
  ∧ (AddMethod methName meth ms th).1.1 = LLBC_FAILED
  ∧ (AddMethod methName meth ms th).1.2 = ms
  ∨ (methName ≠ "" ∧ _meths ms !! methName = None)
  ∧ AddMethod methName meth ms th
    = (LLBC_OK,
       mk (<[methName := meth]> (_meths ms)) (_methList ms ++ [(methName, meth)]),
       th).
Proof.
  destruct (decide (methName = "")) as [->|Hne].
  - left. rewrite AddMethod_empty_name. auto.
  - destruct (_meths ms !! methName) as [old|] eqn:Hold.
    + left. rewrite AddMethod_repeat by eauto. eauto.
    + right. by rewrite AddMethod_fresh.
Qed.

Lemma AddMethod_consistent methName meth ms th :
  consistent ms → consistent (AddMethod methName meth ms th).1.2.
Proof.
  intros Hms.
  destruct (AddMethod_cases methName meth ms th) as [(_ & _ & ->)|[[Hne Hnone] ->]];
    [done|].
  intros k. simpl. rewrite scan_app, Hms.
  destruct (decide (methName = k)) as [->|Hk].
  - by rewrite Hnone, lookup_insert_eq.
  - rewrite lookup_insert_ne by done. by destruct (_meths ms !! k).
Qed.

Lemma AddMethods_consistent calls : ∀ ms th,
  consistent ms → consistent (AddMethods calls ms th).1.
Proof.
  induction calls as [|[n meth] calls IH]; intros ms th Hms; simpl; [done|].
  pose proof (AddMethod_consistent n meth ms th Hms) as Hstep.
  destruct (AddMethod n meth ms th) as [[status ms'] th']. by apply IH.
Qed.

Lemma table_of_consistent calls : consistent (table_of calls).
Proof. apply AddMethods_consistent, consistent_new. Qed.

(** On a consistent table the size test of [GetMethod] does not matter. *)
Lemma GetMethod_consistent ms methName th :
  consistent ms →
  GetMethod_scan methName ms th = GetMethod_find methName ms th
  ∧ GetMethod methName ms th = found_or_null (_meths ms !! methName) th.
Proof.
  intros Hms. unfold GetMethod, GetMethod_scan, GetMethod_find.
  rewrite Hms. split; [done|]. by case_bool_decide.
Qed.

(** C1.  On every table built by [AddMethod] calls the linear scan and the
    map lookup give [GetMethod] the same result (method and thread state),
    under every name.  At the threshold: a table of 30 entries answers by
    the scan, the table of 31 entries that one more successful [AddMethod]
    makes of it answers by the map, and both give the same result under
    every name registered in the first (and under every name other than the
    added one). *)
Theorem GetMethod_paths_agree calls :
  let ms := table_of calls in
  (∀ methName th,
     GetMethod_scan methName ms th = GetMethod_find methName ms th
     ∧ GetMethod methName ms th = GetMethod_scan methName ms th)
  ∧ (∀ n meth th0 ms31 th1,
       length (_methList ms) = 30%nat →
       AddMethod n meth ms th0 = (LLBC_OK, ms31, th1) →
       length (_methList ms31) = 31%nat
       ∧ ∀ methName th,
           is_Some (_meths ms !! methName) ∨ methName ≠ n →
           GetMethod methName ms th = GetMethod_scan methName ms th
           ∧ GetMethod methName ms31 th = GetMethod_find methName ms31 th
           ∧ GetMethod methName ms31 th = GetMethod methName ms th).
Proof.
  intros ms. pose proof (table_of_consistent calls) as Hms. fold ms in Hms.
  split.
  - intros methName th.
    destruct (GetMethod_consistent ms methName th Hms) as [Hpaths Hget].
    split; [done|]. rewrite Hget. unfold GetMethod_scan. by rewrite Hms.
  - intros n meth th0 ms31 th1 Hlen Hadd.
    destruct (AddMethod_cases n meth ms th0) as [(_ & Hfail & _)|[[Hne Hnone] Hok]].
    { rewrite Hadd in Hfail. discriminate Hfail. }
    rewrite Hadd in Hok. injection Hok as -> ->.
    split; [simpl; rewrite length_app, Hlen; done|].
    intros methName th Hname.
    assert (Hdiff : n ≠ methName).
    { destruct Hname as [[old Hold]|Hdiff]; [|done]. intros ->. congruence. }
    unfold GetMethod. simpl. rewrite length_app, Hlen. simpl.
    split; [done|]. split; [done|].
    unfold GetMethod_find, GetMethod_scan. simpl.
    rewrite lookup_insert_ne by done. by rewrite Hms.
Qed.

(** C6.  [AddMethod] fails with last error [Arg] on the empty name and with
    last error [Repeat] on a name already bound; on both failures the map
    and the list are as they were.  Otherwise it returns [LLBC_OK], the
    binding is in the map and at the end of the list, and the last error is
    untouched. *)
Theorem AddMethod_status_and_effect methName meth ms th :
  let '(status, ms', th') := AddMethod methName meth ms th in
  (methName = "" →
     status = LLBC_FAILED ∧ lastError th' = Some LLBC_ERROR_ARG ∧ ms' = ms)
  ∧ (methName ≠ "" → is_Some (_meths ms !! methName) →
     status = LLBC_FAILED ∧ lastError th' = Some LLBC_ERROR_REPEAT ∧ ms' = ms)
  ∧ (methName ≠ "" → _meths ms !! methName = None →
     status = LLBC_OK ∧ th' = th
     ∧ _meths ms' = <[methName := meth]> (_meths ms)
     ∧ _methList ms' = _methList ms ++ [(methName, meth)]
     ∧ _meths ms' !! methName = Some meth
     ∧ (methName, meth) ∈ _methList ms')
  ∧ (status = LLBC_OK ∨ status = LLBC_FAILED ∧ ms' = ms)
  ∧ invoked th' = invoked th.
Proof.
  destruct (decide (methName = "")) as [->|Hne].
  { rewrite AddMethod_empty_name. repeat split; try done; naive_solver. }
  destruct (_meths ms !! methName) as [old|] eqn:Hold.
  - rewrite AddMethod_repeat by eauto.
    repeat split; try done; naive_solver.
  - rewrite AddMethod_fresh by done. simpl.
    split; [done|]. split; [by intros _ [? [=]]|].
    split; [|by auto]. intros _ _.
    repeat split; try done; [apply lookup_insert_eq|set_solver].
Qed.

(** The component's table, once there, is a table [AddMethod] built. *)
Lemma Component_AddMethod_consistent methName meth
    (c : LLBC_Component.t Variant) th :
  (∀ ms, LLBC_Component._meths c = Some ms → consistent ms) →
  ∀ ms, LLBC_Component._meths (LLBC_Component.AddMethod methName meth c th).1.2
        = Some ms → consistent ms.
Proof.
  intros Hc ms. unfold LLBC_Component.AddMethod.
  set (ms0 := match LLBC_Component._meths c with
              | Some ms0 => ms0
              | None => new
              end).
  assert (Hms0 : consistent ms0).
  { subst ms0. destruct (LLBC_Component._meths c); [by apply Hc|].
    apply consistent_new. }
  pose proof (AddMethod_consistent methName meth ms0 th Hms0) as Hstep.
  destruct (AddMethod methName meth ms0 th) as [[status ms'] th']. simpl in *.
  by intros [= <-].
Qed.

Lemma Component_AddMethods_consistent calls : ∀ (c : LLBC_Component.t Variant) th,
  (∀ ms, LLBC_Component._meths c = Some ms → consistent ms) →
  ∀ ms, LLBC_Component._meths (LLBC_Component.AddMethods calls c th).1 = Some ms →
        consistent ms.
Proof.
  induction calls as [|[n meth] calls IH]; intros c th Hc; simpl; [done|].
  pose proof (Component_AddMethod_consistent n meth c th Hc) as Hstep.
  destruct (LLBC_Component.AddMethod n meth c th) as [[status c'] th'].
  by apply IH.
Qed.

(** A miss in [LLBC_ComponentMethods::CallMethod]. *)
Lemma Methods_CallMethod_miss methName (arg ret : Variant) ms th :
  consistent ms → _meths ms !! methName = None →
  CallMethod methName arg ret ms th
  = (LLBC_FAILED, ret, mkThread (Some LLBC_ERROR_NOT_FOUND) (invoked th)).
Proof.
  intros Hms Hnone. unfold CallMethod.
  destruct (GetMethod_consistent ms methName th Hms) as [_ ->].
  by rewrite Hnone.
Qed.

(** C7.  On a component whose methods, if any, were added by [AddMethod],
    [CallMethod] under a name that is not registered returns
    [LLBC_FAILED], leaves [ret] alone, sets the last error to [NotFound] and
    calls no method; so it is on a component no method was ever added to. *)
Theorem CallMethod_unregistered calls th0 methName (arg ret : Variant) th :
  let c := (LLBC_Component.AddMethods calls LLBC_Component.new th0).1 in
  ¬ LLBC_Component.registered methName c →
  ∃ th',
    LLBC_Component.CallMethod methName arg ret c th = (LLBC_FAILED, ret, th')
    ∧ lastError th' = Some LLBC_ERROR_NOT_FOUND
    ∧ invoked th' = invoked th.
Proof.
  intros c Hunreg. exists (mkThread (Some LLBC_ERROR_NOT_FOUND) (invoked th)).
  split; [|done].
  unfold LLBC_Component.CallMethod, LLBC_Component.registered in *.
  destruct (LLBC_Component._meths c) as [ms|] eqn:Hc; [|done].
  apply Methods_CallMethod_miss.
  - eapply (Component_AddMethods_consistent calls LLBC_Component.new th0); [done|].
    exact Hc.
  - destruct (_meths ms !! methName) eqn:Hlook; [|done].
    exfalso. apply Hunreg. eauto.
Qed.

(** ** More on the method table *)

(** The table [AddMethod] leaves does not depend on the thread. *)
Lemma AddMethod_table_any_thread methName meth ms th th' :
  (AddMethod methName meth ms th).1.2 = (AddMethod methName meth ms th').1.2
  ∧ (AddMethod methName meth ms th).1.1 = (AddMethod methName meth ms th').1.1.
Proof.
  unfold AddMethod. case_bool_decide; [done|].
  destruct (emplace methName meth (_meths ms)) as [meths' []]; done.
Qed.

(** What the map binds after a series of [AddMethod] calls: what it bound
    before, else the method of the first call made with the name. *)
Lemma AddMethods_lookup calls : ∀ ms th methName,
  _meths (AddMethods calls ms th).1 !! methName =
    match _meths ms !! methName with
    | Some meth => Some meth
    | None => if decide (methName = "") then None else scan calls methName
    end.
Proof.
  induction calls as [|[k v] calls IH]; intros ms th n; simpl.
  { destruct (_meths ms !! n); [done|]. by destruct (decide (n = "")). }
  destruct (AddMethod_cases k v ms th) as [(Hbad & _ & Hsame)|[[Hne Hnone] Hok]].
  - destruct (AddMethod k v ms th) as [[status ms'] th']. simpl in Hsame.
    subst ms'. rewrite IH.
    destruct (_meths ms !! n) as [m|] eqn:Hn; [done|].
    destruct (decide (n = "")) as [->|Hnn]; [done|].
    rewrite decide_False; [done|].
    destruct Hbad as [->|[old Hold]]; [done|]. intros ->. congruence.
  - rewrite Hok, IH. simpl.
    destruct (decide (k = n)) as [->|Hkn].
    + rewrite lookup_insert_eq, Hnone. by rewrite decide_False.
    + by rewrite lookup_insert_ne.
Qed.

(** The list after a series of [AddMethod] calls: the list before, then
    some of the calls, in the order they were made. *)
Lemma AddMethods_list calls : ∀ ms th,
  ∃ added, _methList (AddMethods calls ms th).1 = _methList ms ++ added
           ∧ sublist added calls.
Proof.
  induction calls as [|[k v] calls IH]; intros ms th; simpl.
  { exists []. by rewrite app_nil_r. }
  destruct (AddMethod_cases k v ms th) as [(_ & _ & Hsame)|[_ Hok]].
  - destruct (AddMethod k v ms th) as [[status ms'] th']. simpl in Hsame.
    subst ms'. destruct (IH ms th') as (added & -> & Hsub).
    exists added. split; [done|]. by apply sublist_cons.
  - rewrite Hok. destruct (IH (mk (<[k:=v]> (_meths ms)) (_methList ms ++ [(k, v)])) th)
      as (added & -> & Hsub).
    exists ((k, v) :: added). simpl. rewrite <- app_assoc. split; [done|].
    by apply sublist_skip.
Qed.

(** Names in the list are different from each other and not empty, and the
    map is the list read as a map. *)
Lemma AddMethod_keeps_shape methName meth ms th :
  NoDup (_methList ms).*1 ∧ ("" ∉ (_methList ms).*1)
  ∧ _meths ms = list_to_map (_methList ms) →
  let ms' := (AddMethod methName meth ms th).1.2 in
  NoDup (_methList ms').*1 ∧ ("" ∉ (_methList ms').*1)
  ∧ _meths ms' = list_to_map (_methList ms').
Proof.
  intros (Hnodup & Hempty & Hmap).
  destruct (AddMethod_cases methName meth ms th) as [(_ & _ & ->)|[[Hne Hnone] ->]];
    [done|]. simpl.
  assert (Hfresh : methName ∉ (_methList ms).*1).
  { rewrite Hmap in Hnone. by apply not_elem_of_list_to_map_2. }
  rewrite fmap_app. simpl. split; [|split].
  - apply NoDup_app. split; [done|]. split; [|apply NoDup_singleton].
    intros x Hx ->%list_elem_of_singleton. done.
  - rewrite elem_of_app, list_elem_of_singleton. intros [?|?]; [done|].
    by apply Hne.
  - rewrite list_to_map_snoc by done. by rewrite Hmap.
Qed.

Lemma AddMethods_keep_shape calls : ∀ ms th,
  NoDup (_methList ms).*1 ∧ ("" ∉ (_methList ms).*1)
  ∧ _meths ms = list_to_map (_methList ms) →
  let ms' := (AddMethods calls ms th).1 in
  NoDup (_methList ms').*1 ∧ ("" ∉ (_methList ms').*1)
  ∧ _meths ms' = list_to_map (_methList ms').
Proof.
  induction calls as [|[k v] calls IH]; intros ms th Hms; simpl; [done|].
  pose proof (AddMethod_keeps_shape k v ms th Hms) as Hstep.
  destruct (AddMethod k v ms th) as [[status ms1] th1]. by apply IH.
Qed.

(** What the map of a table built by calls binds, from the calls. *)
Lemma table_of_lookup calls methName :
  _meths (table_of calls) !! methName
  = if decide (methName = "") then None else scan calls methName.
Proof. unfold table_of. by rewrite AddMethods_lookup. Qed.

(** X8.  Registering and looking up: after a successful [AddMethod] under a
    name, [GetMethod] under that name returns the method just added and
    leaves the last error alone, whatever the size of the table. *)
Theorem AddMethod_then_GetMethod calls methName meth th ms' th1 th2 :
  AddMethod methName meth (table_of calls) th = (LLBC_OK, ms', th1) →
  GetMethod methName ms' th2 = (meth, th2).
Proof.
  intros Hadd.
  pose proof (AddMethod_consistent methName meth (table_of calls) th
                (table_of_consistent calls)) as Hcons.
  destruct (AddMethod_cases methName meth (table_of calls) th)
    as [(_ & Hfail & _)|[_ Hok]].
  { rewrite Hadd in Hfail. discriminate Hfail. }
  rewrite Hadd in Hcons, Hok. simpl in Hcons. injection Hok as -> ->.
  destruct (GetMethod_consistent _ methName th2 Hcons) as [_ ->].
  simpl. by rewrite lookup_insert_eq.
Qed.

(** X9.  The first registration wins: on the table built by a series of
    [AddMethod] calls, [GetMethod] under a non-empty name finds the method
    of the first call made with that name, later calls with the name do not
    replace it; under the empty name, and under a name no call was made
    with, it returns the null method and sets the last error to NotFound. *)
Theorem GetMethod_first_registration calls methName th :
  GetMethod methName (table_of calls) th
  = found_or_null (if decide (methName = "") then None else scan calls methName) th.
Proof.
  destruct (GetMethod_consistent _ methName th (table_of_consistent calls))
    as [_ ->].
  by rewrite table_of_lookup.
Qed.

(** X10.  What every table built by [AddMethod] calls looks like: the names
    in the list are different from each other, none is empty, the list is
    made of calls in the order they were made, the map has as many entries
    as the list, and a pair is in the list exactly when the map binds it. *)
Theorem table_shape calls :
  let ms := table_of calls in
  NoDup (_methList ms).*1
  ∧ ("" ∉ (_methList ms).*1)
  ∧ sublist (_methList ms) calls
  ∧ size (_meths ms) = length (_methList ms)
  ∧ ∀ methName meth,
      (methName, meth) ∈ _methList ms ↔ _meths ms !! methName = Some meth.
Proof.
  intros ms.
  destruct (AddMethods_keep_shape calls new (mkThread None []))
    as (Hnodup & Hempty & Hmap).
  { simpl. split; [constructor|]. split; [by intros ?%elem_of_nil|done]. }
  fold (table_of calls) in Hnodup, Hempty, Hmap. fold ms in Hnodup, Hempty, Hmap.
  split; [done|]. split; [done|]. split; [|split].
  - destruct (AddMethods_list calls new (mkThread None [])) as (added & Hl & Hsub).
    fold (table_of calls) in Hl. fold ms in Hl. by rewrite Hl.
  - rewrite Hmap. by apply map_size_list_to_map.
  - intros n m. rewrite Hmap. by apply elem_of_list_to_map.
Qed.

(** X14.  A name can be registered once: whatever the first [AddMethod]
    under a non-empty name did, a second one under the same name fails with
    last error Repeat and leaves the table as the first one left it. *)
Theorem AddMethod_twice methName meth1 meth2 ms th :
  methName ≠ "" →
  let '(_, ms1, th1) := AddMethod methName meth1 ms th in
  AddMethod methName meth2 ms1 th1
  = (LLBC_FAILED, ms1, LLBC_SetLastError LLBC_ERROR_REPEAT th1).
Proof.
  intros Hne.
  destruct (_meths ms !! methName) as [old|] eqn:Hold.
  - rewrite AddMethod_repeat by eauto. apply AddMethod_repeat; eauto.
  - rewrite AddMethod_fresh by done. apply AddMethod_repeat; [done|].
    simpl. rewrite lookup_insert_eq. eauto.
Qed.

(** ** The component and its table *)

Lemma AddMethods_table_any_thread calls : ∀ ms th th',
  (AddMethods calls ms th).1 = (AddMethods calls ms th').1.
Proof.
  induction calls as [|[k v] calls IH]; intros ms th th'; simpl; [done|].
  destruct (AddMethod_table_any_thread k v ms th th') as [Htable _].
  destruct (AddMethod k v ms th) as [[status1 ms1] th1].
  destruct (AddMethod k v ms th') as [[status2 ms2] th2].
  simpl in Htable. subst ms2. apply IH.
Qed.

(** The component's [AddMethod] calls are the table's, on the table the
    component has or on a new one. *)
Lemma Component_AddMethods_table calls : ∀ (c : LLBC_Component.t Variant) th,
  LLBC_Component.GetAllMethods (LLBC_Component.AddMethods calls c th).1
  = (AddMethods calls (LLBC_Component.GetAllMethods c) th).1
  ∧ (LLBC_Component.AddMethods calls c th).2
    = (AddMethods calls (LLBC_Component.GetAllMethods c) th).2.
Proof.
  induction calls as [|[k v] calls IH]; intros c th; simpl; [done|].
  unfold LLBC_Component.AddMethod.
  fold (LLBC_Component.GetAllMethods c).
  destruct (AddMethod k v (LLBC_Component.GetAllMethods c) th)
    as [[status ms1] th1].
  apply (IH (LLBC_Component.mk (Some ms1)) th1).
Qed.

(** The table is there from the first [AddMethod] call on, whether the call
    succeeded or not. *)
Lemma Component_AddMethods_allocated calls : ∀ (c : LLBC_Component.t Variant) th,
  calls ≠ [] ∨ is_Some (LLBC_Component._meths c) →
  is_Some (LLBC_Component._meths (LLBC_Component.AddMethods calls c th).1).
Proof.
  induction calls as [|[k v] calls IH]; intros c th Hc; simpl.
  { by destruct Hc. }
  destruct (LLBC_Component.AddMethod k v c th) as [[status c1] th1] eqn:Hadd.
  apply IH. right. unfold LLBC_Component.AddMethod in Hadd.
  destruct (AddMethod k v _ th) as [[status' ms1] th1'].
  injection Hadd as _ <- _. simpl. eauto.
Qed.

(** The table of a component built by [AddMethod] calls. *)
Lemma Component_table calls th ms :
  LLBC_Component._meths
    (LLBC_Component.AddMethods calls LLBC_Component.new th).1 = Some ms →
  ms = table_of calls.
Proof.
  intros Hms.
  destruct (Component_AddMethods_table calls LLBC_Component.new th) as [Htable _].
  unfold LLBC_Component.GetAllMethods at 1 in Htable. rewrite Hms in Htable.
  rewrite Htable. apply AddMethods_table_any_thread.
Qed.

(** X11.  The component allocates its table on the first [AddMethod] call,
    successful or not, and nobody can tell from [GetAllMethods]: on a
    component built by [AddMethod] calls it returns the table the same
    calls build directly, the empty table when there was no call. *)
Theorem Component_table_allocated_lazily calls th :
  let c := (LLBC_Component.AddMethods calls LLBC_Component.new th).1 in
  LLBC_Component.GetAllMethods c = table_of calls
  ∧ (LLBC_Component._meths c = None ↔ calls = [])
  ∧ (LLBC_Component.AddMethods calls LLBC_Component.new th).2
    = (AddMethods calls new th).2.
Proof.
  intros c.
  destruct (Component_AddMethods_table calls LLBC_Component.new th)
    as [Htable Hthread].
  split; [|split; [|exact Hthread]].
  - fold c in Htable. rewrite Htable. apply AddMethods_table_any_thread.
  - split.
    + intros Hnone. destruct calls as [|call calls]; [done|].
      destruct (Component_AddMethods_allocated (call :: calls)
                  LLBC_Component.new th) as [ms Hms]; [by left|].
      fold c in Hms. congruence.
    + intros ->. done.
Qed.

(** X12.  [CallMethod] reaches the method of the first registration: on a
    component built by [AddMethod] calls, when the first call made with a
    non-empty name bound a handler, [CallMethod] under that name calls this
    handler once, with the argument and the current [ret], and returns what
    it returns. *)
Theorem CallMethod_dispatches calls th0 methName h (arg ret : Variant) th :
  methName ≠ "" →
  scan calls methName = Some (Some h) →
  let c := (LLBC_Component.AddMethods calls LLBC_Component.new th0).1 in
  LLBC_Component.CallMethod methName arg ret c th = invoke h arg ret th
  ∧ invoked (LLBC_Component.CallMethod methName arg ret c th).2
    = invoked th ++ [(h, arg)].
Proof.
  intros Hne Hscan c.
  assert (Hcall : LLBC_Component.CallMethod methName arg ret c th
                  = invoke h arg ret th).
  { destruct (Component_AddMethods_allocated calls LLBC_Component.new th0)
      as [ms Hms]; [left; by intros ->|].
    fold c in Hms. unfold LLBC_Component.CallMethod. rewrite Hms.
    rewrite (Component_table calls th0 ms Hms).
    unfold CallMethod.
    destruct (GetMethod_consistent _ methName th (table_of_consistent calls))
      as [_ ->].
    rewrite table_of_lookup, decide_False by done. by rewrite Hscan. }
  split; [exact Hcall|]. rewrite Hcall. unfold invoke.
  by destruct (h arg ret (lastError th)) as [[status ret'] err].
Qed.

(** X13.  An empty delegate can be registered, and calling it fails
    silently: when the first call made with a non-empty name bound an empty
    delegate, [CallMethod] under that name returns [LLBC_FAILED], calls
    nothing and leaves [ret] and the last error as they were. *)
Theorem CallMethod_empty_delegate calls th0 methName (arg ret : Variant) th :
  methName ≠ "" →
  scan calls methName = Some None →
  let c := (LLBC_Component.AddMethods calls LLBC_Component.new th0).1 in
  LLBC_Component.registered methName c
  ∧ LLBC_Component.CallMethod methName arg ret c th = (LLBC_FAILED, ret, th).
Proof.
  intros Hne Hscan c.
  destruct (Component_AddMethods_allocated calls LLBC_Component.new th0)
    as [ms Hms]; [left; by intros ->|].
  fold c in Hms. unfold LLBC_Component.registered, LLBC_Component.CallMethod.
  rewrite Hms. rewrite (Component_table calls th0 ms Hms). split.
  - rewrite table_of_lookup, decide_False by done. rewrite Hscan. eauto.
  - unfold CallMethod.
    destruct (GetMethod_consistent _ methName th (table_of_consistent calls))
      as [_ ->].
    rewrite table_of_lookup, decide_False by done. by rewrite Hscan.
Qed.

End Table.

Lemma CallMethod_unregistered_witness :
  let c := (LLBC_Component.AddMethods [("ping", Some echo)]
              LLBC_Component.new (mkThread None [])).1 in
  ¬ LLBC_Component.registered "pong" c
  ∧ ∃ th',
      LLBC_Component.CallMethod "pong" 7 0 c (mkThread None [])
      = (LLBC_FAILED, 0, th')
      ∧ lastError th' = Some LLBC_ERROR_NOT_FOUND
      ∧ invoked th' = invoked (mkThread (Variant := Z) None []).
Proof.
  assert (Hunreg : ¬ LLBC_Component.registered "pong"
            (LLBC_Component.AddMethods [("ping", Some echo)]
               LLBC_Component.new (mkThread None [])).1).
  { vm_compute. intros [meth Hmeth]. discriminate Hmeth. }
  split; [exact Hunreg|].
  exact (CallMethod_unregistered [("ping", Some echo)] (mkThread None [])
           "pong" 7 0 (mkThread None []) Hunreg).
Defined.

Lemma GetMethod_paths_agree_witness :
  let ms := table_of (echo_calls 30) in
  let th := mkThread (Variant := Z) None [] in
  let ms31 := (AddMethod "extra" (Some echo) ms th).1.2 in
  length (_methList ms) = 30%nat
  ∧ length (_methList ms31) = 31%nat
  ∧ GetMethod "a" ms th = (Some echo, th)
  ∧ GetMethod "a" ms31 th = GetMethod "a" ms th
  ∧ GetMethod "zz" ms31 th = GetMethod "zz" ms th.
Proof.
  intros ms th ms31.
  assert (Hlen : length (_methList ms) = 30%nat) by (vm_compute; reflexivity).
  assert (Hadd : AddMethod "extra" (Some echo) ms th = (LLBC_OK, ms31, th))
    by (vm_compute; reflexivity).
  destruct (GetMethod_paths_agree (echo_calls 30)) as [_ Hboundary].
  destruct (Hboundary "extra" (Some echo) th ms31 th Hlen Hadd) as [Hlen31 Hsame].
  split; [exact Hlen|]. split; [exact Hlen31|].
  split; [vm_compute; reflexivity|].
  split.
  - apply Hsame. right. discriminate.
  - apply Hsame. right. discriminate.
Defined.

Lemma AddMethod_then_GetMethod_witness :
  let ms := table_of (echo_calls 30) in
  let th := mkThread (Variant := Z) None [] in
  ∃ ms', AddMethod "extra" (Some echo) ms th = (LLBC_OK, ms', th)
         ∧ GetMethod "extra" ms' th = (Some echo, th).
Proof.
  intros ms th. eexists.
  assert (Hadd : AddMethod "extra" (Some echo) ms th
                 = (LLBC_OK, (AddMethod "extra" (Some echo) ms th).1.2, th))
    by (vm_compute; reflexivity).
  split; [exact Hadd|].
  exact (AddMethod_then_GetMethod (echo_calls 30) "extra" (Some echo) th _ th th Hadd).
Defined.

Lemma AddMethod_twice_witness :
  let th := mkThread (Variant := Z) None [] in
  let '(_, ms1, th1) := AddMethod "ping" (Some echo) new th in
  AddMethod "ping" None ms1 th1
  = (LLBC_FAILED, ms1, LLBC_SetLastError LLBC_ERROR_REPEAT th1).
Proof.
  apply (AddMethod_twice "ping" (Some echo) None new (mkThread None [])).
  discriminate.
Defined.

Lemma CallMethod_dispatches_witness :
  let calls := [("ping", Some echo); ("ping", None)] in
  let th := mkThread (Variant := Z) None [] in
  let c := (LLBC_Component.AddMethods calls LLBC_Component.new th).1 in
  LLBC_Component.CallMethod "ping" 7 0 c th = invoke echo 7 0 th
  ∧ invoked (LLBC_Component.CallMethod "ping" 7 0 c th).2
    = invoked th ++ [(echo, 7)].
Proof.
  apply (CallMethod_dispatches [("ping", Some echo); ("ping", None)]
           (mkThread None []) "ping" echo 7 0 (mkThread None [])).
  - discriminate.
  - reflexivity.
Defined.

Lemma CallMethod_empty_delegate_witness :
  let calls := [("mute", None); ("mute", Some echo)] in
  let th := mkThread (Variant := Z) None [] in
  let c := (LLBC_Component.AddMethods calls LLBC_Component.new th).1 in
  LLBC_Component.registered "mute" c
  ∧ LLBC_Component.CallMethod "mute" 7 0 c th = (LLBC_FAILED, 0, th).
Proof.
  apply (CallMethod_empty_delegate [("mute", None); ("mute", Some echo)]
           (mkThread None []) "mute" 7 0 (mkThread None [])).
  - discriminate.
  - reflexivity.
Defined.

(** The call does reach a registered method. *)
Example CallMethod_registered_test :
  let c := (LLBC_Component.AddMethods [("ping", Some echo)]
              LLBC_Component.new (mkThread None [])).1 in
  LLBC_Component.CallMethod "ping" 7 0 c (mkThread None [])
  = (LLBC_OK, 7, mkThread None [(echo, 7)]).
Proof. reflexivity. Qed.

End MethodsFacts.
